(** * Block affinity claiming and release (lib/client/ipam_block_reader_writer.go)

    A shallow embedding of the IPAM block reader/writer: the two block
    generators, [claimNewAffineBlock], [claimBlockAffinity] and
    [releaseBlockAffinity].  Calls to the datastore backend and to the pool
    catalogue are kept as the nodes of a program tree, so that the same
    embedding is run against an arbitrary backend, against an in-memory
    store, and interleaved with other callers. *)

From Stdlib Require Import ZArith Lia List Ascii.
From stdpp Require Import base decidable countable strings list gmap relations.

Local Open Scope Z_scope.

(** ** Addresses and networks *)

(** A [net.IP] is a byte slice of length 4 or 16.  The code only ever reads
    it as a big-endian integer (through [incrementIP]) or masks it (through
    [Contains]), so it is kept as its family and its integer value. *)
Inductive ipFamily := IPv4 | IPv6.

Definition addrBits (f : ipFamily) : Z :=
  match f with IPv4 => 32 | IPv6 => 128 end.

Record IP := mkIP { ipFam : ipFamily; ipInt : Z }.

(** [net.IPMask] in the canonical form built by [net.CIDRMask ones bits]. *)
Record IPMask := CIDRMask { maskOnes : Z; maskBits : Z }.

(** [common.IPNet] wraps [net.IPNet { IP; Mask }]. *)
Record IPNet := mkIPNet { netIP : IP; netMask : IPMask }.

(** [ipVersion] as used through [version.Number] and
    [version.BlockPrefixMask]. *)
Record ipVersion := mkIPVersion {
  Number : Z;
  TotalBits : Z;
  BlockPrefixLength : Z;
  BlockPrefixMask : IPMask
}.

#[global] Instance ipFamily_eq_dec : EqDecision ipFamily.
Proof. solve_decision. Defined.
#[global] Instance IP_eq_dec : EqDecision IP.
Proof. solve_decision. Defined.
#[global] Instance IPMask_eq_dec : EqDecision IPMask.
Proof. solve_decision. Defined.
#[global] Instance IPNet_eq_dec : EqDecision IPNet.
Proof. solve_decision. Defined.

#[global] Instance ipFamily_countable : Countable ipFamily.
Proof.
  refine (inj_countable' (fun f => match f with IPv4 => false | IPv6 => true end)
                         (fun b : bool => if b then IPv6 else IPv4) _).
  by intros [].
Defined.
#[global] Instance IP_countable : Countable IP.
Proof.
  refine (inj_countable' (fun i => (ipFam i, ipInt i))
                         (fun p => mkIP (fst p) (snd p)) _).
  by intros [].
Defined.
#[global] Instance IPMask_countable : Countable IPMask.
Proof.
  refine (inj_countable' (fun m => (maskOnes m, maskBits m))
                         (fun p => CIDRMask (fst p) (snd p)) _).
  by intros [].
Defined.
#[global] Instance IPNet_countable : Countable IPNet.
Proof.
  refine (inj_countable' (fun n => (netIP n, netMask n))
                         (fun p => mkIPNet (fst p) (snd p)) _).
  by intros [].
Defined.

(** The mask as an integer: [ones] leading one bits out of [bits]. *)
Definition maskInt (m : IPMask) : Z :=
  Z.shiftl (Z.ones (maskOnes m)) (maskBits m - maskOnes m).

(** [net.IPNet.Contains]: the address must have the length of the network
    number, and agree with it on every masked byte.  An integer that does
    not fit the family's width stands for a slice of another length, which
    [Contains] rejects. *)
Definition Contains (n : IPNet) (ip : IP) : bool :=
  bool_decide (ipFam (netIP n) = ipFam ip)
  && (maskBits (netMask n) =? addrBits (ipFam ip))
  && (0 <=? ipInt ip) && (ipInt ip <? 2 ^ addrBits (ipFam ip))
  && (Z.land (ipInt (netIP n)) (maskInt (netMask n))
      =? Z.land (ipInt ip) (maskInt (netMask n))).

(** [common.IPNet.Version]: 4 for a four-byte address, 6 otherwise. *)
Definition Version (n : IPNet) : Z :=
  match ipFam (netIP n) with IPv4 => 4 | IPv6 => 6 end.

(** [net.IPMask.Size]. *)
Definition Size (m : IPMask) : Z * Z := (maskOnes m, maskBits m).

(** Modelled from the spec: [incrementIP], declared outside this file,
    advances an address by the given number of addresses. *)
Definition incrementIP (ip : IP) (increment : Z) : IP :=
  mkIP (ipFam ip) (ipInt ip + increment).

(** ** Datastore model (lib/backend/model) *)

(** Modelled from the spec: [model.AllocationBlock] is declared outside this
    file.  Its allocation state is kept as the addresses leased out of the
    block, which the code only uses to decide emptiness. *)
Record AllocationBlock := mkBlock {
  CIDR : IPNet;
  HostAffinity : option string;
  StrictAffinity : bool;
  Allocations : list Z
}.

Inductive Key :=
| BlockKey (cidr : IPNet)
| BlockAffinityKey (host : string) (cidr : IPNet).

(** The dynamically typed [Value] of a pair; [VNil] is the nil interface of
    a pair built with a key only. *)
Inductive Value :=
| VAllocationBlock (b : AllocationBlock)
| VBlockAffinity
| VNil.

(** [model.KVPair]; the revision is absent on pairs built by the client and
    set on pairs returned by the backend. *)
Record KVPair := mkKV {
  kvKey : Key;
  kvValue : Value;
  kvRevision : option Z
}.

Record IPAMConfig := mkConfig {
  cfgStrictAffinity : bool;
  cfgAutoAllocateBlocks : bool
}.

(** [api.Pool], reduced to the two fields read here: [Metadata.CIDR] and
    [Spec.Disabled]. *)
Record Pool := mkPool { poolCIDR : IPNet; poolDisabled : bool }.

(** Arguments of a formatted message. *)
Inductive fmtArg := ArgNet (n : IPNet) | ArgInt (z : Z).

(** The error values that reach this file.  The first three are the typed
    backend errors the code tells apart by type assertion; [ErrorDatastore]
    stands for every other backend failure. *)
Inductive error :=
| ErrorResourceDoesNotExist
| ErrorResourceAlreadyExists
| ErrorResourceUpdateConflict
| ErrorDatastore (msg : string)
| noFreeBlocksError (msg : string)
| affinityClaimedError (Block : AllocationBlock)
| errorsNew (fmt : string) (args : list fmtArg).

Inductive result (A : Type) :=
| Ok (a : A)
| Err (e : error).
Arguments Ok {A} a.
Arguments Err {A} e.

#[global] Instance Key_eq_dec : EqDecision Key.
Proof. solve_decision. Defined.
#[global] Instance Key_countable : Countable Key.
Proof.
  refine (inj_countable'
    (fun k => match k with
              | BlockKey c => inl c
              | BlockAffinityKey h c => inr (h, c)
              end)
    (fun s => match s with
              | inl c => BlockKey c
              | inr (h, c) => BlockAffinityKey h c
              end) _).
  by intros [].
Defined.

(** ** Calls out of the reader/writer

    [rw.client.backend] is an interface ([Get], [Create], [Update],
    [Delete]) and [rw.client.Pools().List] a call into the pool catalogue.
    A program is the tree of those calls. *)
Inductive clientCall :=
| Get (k : Key)
| Create (kv : KVPair)
| Update (kv : KVPair)
| Delete (kv : KVPair)
| PoolsList.

Definition response (op : clientCall) : Type :=
  match op with
  | Get _ | Create _ | Update _ => result KVPair
  | Delete _ => option error
  | PoolsList => result (list Pool)
  end.

Inductive Prog (A : Type) : Type :=
| Ret (a : A)
| Panic (msg : string)
| Call (op : clientCall) (k : response op -> Prog A).
Arguments Ret {A} a.
Arguments Panic {A} msg.
Arguments Call {A} op k.

Fixpoint bind {A B : Type} (p : Prog A) (f : A -> Prog B) : Prog B :=
  match p with
  | Ret a => f a
  | Panic msg => Panic msg
  | Call op k => Call op (fun r => bind (k r) f)
  end.

Definition call (op : clientCall) : Prog (response op) := Call op Ret.

Declare Scope prog_scope.
Delimit Scope prog_scope with prog.
Notation "'let*' x ':=' p 'in' q" := (bind p (fun x => q))
  (at level 10, x name, p at level 200, q at level 200) : prog_scope.
Local Open Scope prog_scope.

(** How a run of a program ends. *)
Inductive outcome (A : Type) :=
| Returned (a : A)
| Panicked (msg : string).
Arguments Returned {A} a.
Arguments Panicked {A} msg.

(** A backend is anything that answers a call from its current state. *)
Definition handler (S : Type) : Type := forall op : clientCall, S -> response op * S.

(** Run a program against a backend: the outcome, the final backend state
    and the calls issued, in order. *)
Fixpoint interp {S A : Type} (h : handler S) (p : Prog A) (s : S)
  : outcome A * S * list clientCall :=
  match p with
  | Ret a => (Returned a, s, [])
  | Panic msg => (Panicked msg, s, [])
  | Call op k =>
      let '(r, s1) := h op s in
      let '(o, s2, tr) := interp h (k r) s1 in
      (o, s2, op :: tr)
  end.

(** ** An in-memory store

    Modelled from the spec: the Block Store is an external collaborator; its
    contract is a versioned key/value store where [Create] fails with
    already-exists on an occupied key, [Update] is a compare-and-swap on the
    revision that was read, and [Get], [Update] and [Delete] report
    not-found on an absent key. *)
Record Entry := mkEntry { entValue : Value; entRevision : Z }.

Record Store := mkStore {
  kvs : gmap Key Entry;
  clock : Z;
  pools : list Pool
}.

Definition revisionMatches (kv : KVPair) (e : Entry) : bool :=
  match kvRevision kv with
  | None => true
  | Some r => r =? entRevision e
  end.

Definition writeKV (kv : KVPair) (st : Store) : KVPair * Store :=
  let rev := clock st + 1 in
  (mkKV (kvKey kv) (kvValue kv) (Some rev),
   mkStore (<[kvKey kv := mkEntry (kvValue kv) rev]> (kvs st)) rev (pools st)).

Definition memBackend : handler Store := fun op =>
  match op return Store -> response op * Store with
  | Get k => fun st =>
      match kvs st !! k with
      | Some e => (Ok (mkKV k (entValue e) (Some (entRevision e))), st)
      | None => (Err ErrorResourceDoesNotExist, st)
      end
  | Create kv => fun st =>
      match kvs st !! kvKey kv with
      | Some _ => (Err ErrorResourceAlreadyExists, st)
      | None => let '(kv', st') := writeKV kv st in (Ok kv', st')
      end
  | Update kv => fun st =>
      match kvs st !! kvKey kv with
      | None => (Err ErrorResourceDoesNotExist, st)
      | Some e =>
          if revisionMatches kv e
          then let '(kv', st') := writeKV kv st in (Ok kv', st')
          else (Err ErrorResourceUpdateConflict, st)
      end
  | Delete kv => fun st =>
      match kvs st !! kvKey kv with
      | None => (Some ErrorResourceDoesNotExist, st)
      | Some e =>
          if revisionMatches kv e
          then (None, mkStore (delete (kvKey kv) (kvs st)) (clock st + 1) (pools st))
          else (Some ErrorResourceUpdateConflict, st)
      end
  | PoolsList => fun st => (Ok (pools st), st)
  end.

(** ** The reader/writer *)

Definition claimResult : Type := option IPNet * option error.

Definition isDoesNotExist (e : error) : bool :=
  match e with ErrorResourceDoesNotExist => true | _ => false end.
Definition isAlreadyExists (e : error) : bool :=
  match e with ErrorResourceAlreadyExists => true | _ => false end.
Definition isUpdateConflict (e : error) : bool :=
  match e with ErrorResourceUpdateConflict => true | _ => false end.

(** The unchecked type assertion [obj.Value.(model.AllocationBlock)]. *)
Definition assertAllocationBlock (v : Value) : Prog AllocationBlock :=
  match v with
  | VAllocationBlock b => Ret b
  | _ => Panic "interface conversion: not a model.AllocationBlock"
  end.

(** Modelled from the spec: [newBlock], declared outside this file, builds
    the record of a block nobody holds and nothing is leased from. *)
Definition newBlock (subnet : IPNet) : AllocationBlock :=
  mkBlock subnet None false [].

(** Modelled from the spec: [allocationBlock.empty], declared outside this
    file: no address of the block is leased. *)
Definition empty (b : AllocationBlock) : bool :=
  match Allocations b with [] => true | _ => false end.

(** ** Concrete values for the examples

    IPv4 blocks of 64 addresses (/26) inside the pool 10.0.0.0/24, and the
    IPv6 counterpart (/122). *)
Definition ip4 (a b c d : Z) : IP := mkIP IPv4 (((a * 256 + b) * 256 + c) * 256 + d).
Definition stdIPv4 : ipVersion := mkIPVersion 4 32 26 (CIDRMask 26 32).
Definition stdIPv6 : ipVersion := mkIPVersion 6 128 122 (CIDRMask 122 128).
Definition pool24 : IPNet := mkIPNet (ip4 10 0 0 0) (CIDRMask 24 32).
Definition block26 (d : Z) : IPNet := mkIPNet (ip4 10 0 0 d) (CIDRMask 26 32).
Definition emptyStore : Store := mkStore ∅ 0 [mkPool pool24 false].
Definition lenient : IPAMConfig := mkConfig false false.

Definition heldBy (d : Z) (owner : option string) (leased : list Z) : AllocationBlock :=
  mkBlock (block26 d) owner false leased.

(** The store after the given block records were written, in order. *)
Fixpoint putBlocks (bs : list AllocationBlock) (st : Store) : Store :=
  match bs with
  | [] => st
  | b :: bs' =>
      putBlocks bs' (snd (writeKV (mkKV (BlockKey (CIDR b)) (VAllocationBlock b) None) st))
  end.

(** A backend under contention: while interferences are left, a concurrent
    writer rewrites the record just before each [Update] is served, so that
    the revision the caller read is stale. *)
Definition interfere (k : Key) (st : Store) : Store :=
  match kvs st !! k with
  | Some e => snd (writeKV (mkKV k (entValue e) None) st)
  | None => st
  end.

Definition racingBackend : handler (Store * nat) := fun op =>
  match op return Store * nat -> response op * (Store * nat) with
  | Update kv => fun '(st, n) =>
      match n with
      | S n' => let '(r, st') := memBackend (Update kv) (interfere (kvKey kv) st) in
                (r, (st', n'))
      | O => let '(r, st') := memBackend (Update kv) st in (r, (st', n))
      end
  | Get k => fun '(st, n) => let '(r, st') := memBackend (Get k) st in (r, (st', n))
  | Create kv => fun '(st, n) => let '(r, st') := memBackend (Create kv) st in (r, (st', n))
  | Delete kv => fun '(st, n) => let '(r, st') := memBackend (Delete kv) st in (r, (st', n))
  | PoolsList => fun '(st, n) => let '(r, st') := memBackend PoolsList st in (r, (st', n))
  end.

(** A backend whose [Delete] always fails with a datastore error. *)
Definition noDeleteBackend : handler Store := fun op =>
  match op return Store -> response op * Store with
  | Delete kv => fun st => (Some (ErrorDatastore "delete refused"), st)
  | Get k => memBackend (Get k)
  | Create kv => memBackend (Create kv)
  | Update kv => memBackend (Update kv)
  | PoolsList => memBackend PoolsList
  end.

(** ** Name conversion (lib/backend/k8s/resources)

    Conversion between addresses and the names of the resources that hold
    them.  A Go string is a byte string.  [strings.Replace] and
    [strings.Count] are only called with one-byte patterns, and are
    modelled at those. *)

(** [strings.Replace(s, old, new, n)] for one-byte [old] and [new] and a
    count [n] that is not negative: the first [n] instances are replaced. *)
Fixpoint stringsReplace (s : string) (old new : Ascii.ascii) (n : nat) : string :=
  match s with
  | EmptyString => EmptyString
  | String c rest =>
      match n with
      | O => s
      | S n' =>
          if Ascii.eqb c old
          then String new (stringsReplace rest old new n')
          else String c (stringsReplace rest old new n)
      end
  end.

(** [strings.Count(s, substr)] for a one-byte [substr]. *)
Fixpoint stringsCount (s : string) (c : Ascii.ascii) : nat :=
  match s with
  | EmptyString => O
  | String a rest => if Ascii.eqb a c then S (stringsCount rest c) else stringsCount rest c
  end.

(** [strings.Contains(s, substr)]. *)
Fixpoint stringsContains (s substr : string) : bool :=
  String.prefix substr s
  || match s with
     | EmptyString => false
     | String _ rest => stringsContains rest substr
     end.

(** [strings.LastIndex(s, substr)] for a one-byte [substr]; -1 when the
    byte is absent. *)
Fixpoint stringsLastIndex (s : string) (c : Ascii.ascii) : Z :=
  match s with
  | EmptyString => -1
  | String a rest =>
      let r := stringsLastIndex rest c in
      if 0 <=? r then r + 1
      else if Ascii.eqb a c then 0 else -1
  end.

(** The slices [s[:idx]] and [s[idx:]] for an index within the string. *)
Definition sliceTo (s : string) (idx : Z) : string :=
  String.substring 0 (Z.to_nat idx) s.
Definition sliceFrom (s : string) (idx : Z) : string :=
  String.substring (Z.to_nat idx) (String.length s - Z.to_nat idx) s.

(** An error built by [fmt.Errorf] from a format and the name. *)
Inductive fmtError := Errorf (format : string) (arg : string).

Section NameConversion.

(** The address type of lib/net with its [String] methods, [net.ParseIP]
    and [net.ParseCIDR] are declared outside this file.  [ParseIP] gives
    nothing where the Go function returns nil, [ParseCIDR] gives the network
    it returns, and nothing where it returns an error. *)
Variable IPString : IP -> string.
Variable ParseIP : string -> option IP.
Variable IPNetString : IPNet -> string.
Variable ParseCIDR : string -> option IPNet.

Definition IPToResourceName (ip : IP) : string :=
  let name := stringsReplace (IPString ip) "." "-" 3 in
  let name := stringsReplace name ":" "-" 7 in
  name.

Definition resourceNameToIPString (name : string) : string :=
  if stringsContains name "--" || (3 <? stringsCount name "-")%nat
  then stringsReplace name "-" ":" 7
  else stringsReplace name "-" "." 3.

Definition ResourceNameToIP (name : string) : IP + fmtError :=
  match ParseIP (resourceNameToIPString name) with
  | None =>
      inr (Errorf "invalid resource name %s: does not follow Calico IP name format" name)
  | Some ip => inl ip
  end.

Definition IPNetToResourceName (net : IPNet) : string :=
  let name := stringsReplace (IPNetString net) "." "-" 3 in
  let name := stringsReplace name ":" "-" 7 in
  let name := stringsReplace name "/" "-" 1 in
  name.

Definition ResourceNameToIPNet (name : string) : IPNet + fmtError :=
  let idx := stringsLastIndex name "-" in
  if idx =? -1
  then inr (Errorf "invalid resource name: %s: does not follow Calico IPNet name format"
                   name)
  else
    let ipstr := resourceNameToIPString (sliceTo name idx) in
    let size := sliceFrom name (idx + 1) in
    match ParseCIDR (ipstr ++ "/" ++ size) with
    | None =>
        inr (Errorf "invalid resource name %s: does not follow Calico IPNet name format"
                    name)
    | Some cidr => inl cidr
    end.

End NameConversion.

(** The textual form of an IPv4 address: at most three dots, no two of them
    adjacent, no colon and no dash. *)
Definition dottedForm (s : string) : Prop :=
  stringsCount s ":" = O /\ stringsCount s "-" = O
  /\ (stringsCount s "." <= 3)%nat /\ stringsContains s ".." = false.

(** The textual form of an IPv6 address: at most seven colons, of which two
    are adjacent or more than three are present, no dot and no dash. *)
Definition colonForm (s : string) : Prop :=
  stringsCount s "." = O /\ stringsCount s "-" = O
  /\ (stringsCount s ":" <= 7)%nat
  /\ (stringsContains s "::" = true \/ (3 < stringsCount s ":")%nat).

Section ReaderWriter.

(** The package constants [blockSize] and [ipamEtcdRetries] and the two
    [ipVersion] values behind [getIPVersion] are declared outside this
    file; the development is parametric in them. *)
Variable blockSize : Z.
Variable ipamEtcdRetries : nat.
Variables ipv4 ipv6 : ipVersion.

(** Modelled from the spec: [getIPVersion], declared outside this file,
    gives the [ipVersion] of the family of the address. *)
Definition getIPVersion (ip : IP) : ipVersion :=
  match ipFam ip with IPv4 => ipv4 | IPv6 => ipv6 end.

(** *** Block generators

    A generator is a closure over mutable variables; it is modelled by the
    captured variables and the function that one call performs on them. *)
Record blockGen := mkBlockGen {
  genPool : IPNet;
  genVersion : ipVersion;
  genIP : IP
}.

Definition blockGenerator (pool : IPNet) : blockGen :=
  mkBlockGen pool (getIPVersion (netIP pool)) (netIP pool).

(** One call [blocks()] of the closure returned by [blockGenerator]. *)
Definition blocks (g : blockGen) : option IPNet * blockGen :=
  let returnIP := genIP g in
  let ip := incrementIP (genIP g) blockSize in
  let g' := mkBlockGen (genPool g) (genVersion g) ip in
  if Contains (genPool g) ip
  then (Some (mkIPNet returnIP (BlockPrefixMask (genVersion g))), g')
  else (None, g').

Record randomGen := mkRandomGen {
  rgBaseIP : IP;
  rgVersion : ipVersion;
  rgIdxs : list Z;
  rgI : Z
}.

(** [int(math.Exp2(float64(prefixLen)))] with a 64-bit [int]: exact while
    the power of two fits, truncated to zero for a negative exponent, and
    left open by the language ([None]) when the value does not fit. *)
Definition intExp2 (prefixLen : Z) : option Z :=
  if prefixLen <? 0 then Some 0
  else if prefixLen <=? 62 then Some (2 ^ prefixLen)
  else None.

(** [randomBlockGenerator]; [randPerm n] is what [randm.Perm(n)] returns.
    [None] when the Go code has no defined generator: the conversion above
    is out of range, the division is by zero, or [Perm] is given a
    negative count. *)
Definition randomBlockGenerator (randPerm : Z -> list Z) (pool : IPNet)
  : option randomGen :=
  let version := getIPVersion (netIP pool) in
  let baseIP := netIP pool in
  let '(ones, size) := Size (netMask pool) in
  let prefixLen := size - ones in
  match intExp2 prefixLen with
  | None => None
  | Some e =>
      if blockSize =? 0 then None
      else
        let numBlocks := Z.quot e blockSize in
        if numBlocks <? 0 then None
        else Some (mkRandomGen baseIP version (randPerm numBlocks) 0)
  end.

(** One call of the closure returned by [randomBlockGenerator]. *)
Definition randomBlocks (g : randomGen) : option IPNet * randomGen :=
  if negb (Nat.eqb (length (rgIdxs g)) 0)
  then
    let i := List.last (rgIdxs g) 0 in
    let idxs := List.removelast (rgIdxs g) in
    let ip := incrementIP (rgBaseIP g) (i * blockSize) in
    (Some (mkIPNet ip (BlockPrefixMask (rgVersion g))),
     mkRandomGen (rgBaseIP g) (rgVersion g) idxs i)
  else (None, g).

(** The values returned by the first [n] calls of a generator. *)
Fixpoint outputs {G : Type} (next : G -> option IPNet * G) (n : nat) (g : G)
  : list (option IPNet) :=
  match n with
  | O => []
  | S n' => let '(o, g') := next g in o :: outputs next n' g'
  end.

(** *** claimBlockAffinity *)
Definition claimBlockAffinity (subnet : IPNet) (host : string) (config : IPAMConfig)
  : Prog (option error) :=
  let obj := mkKV (BlockAffinityKey host subnet) VBlockAffinity None in
  let* _ := call (Create obj) in
  let block := newBlock subnet in
  let block := mkBlock (CIDR block) (Some host) (cfgStrictAffinity config)
                       (Allocations block) in
  let o := mkKV (BlockKey (CIDR block)) (VAllocationBlock block) None in
  let* r := call (Create o) in
  match r with
  | Err err =>
      if isAlreadyExists err then
        let* r' := call (Get (BlockKey subnet)) in
        match r' with
        | Err err => Ret (Some err)
        | Ok obj =>
            let* b := assertAllocationBlock (kvValue obj) in
            if match HostAffinity b with
               | Some h => String.eqb h host
               | None => false
               end
            then Ret None
            else
              let* err := call (Delete (mkKV (BlockAffinityKey host (CIDR b)) VNil None)) in
              match err with
              | Some err => Ret (Some err)
              | None => Ret (Some (affinityClaimedError b))
              end
        end
      else Ret (Some err)
  | Ok _ => Ret None
  end.

(** *** claimNewAffineBlock *)

(** [isConfiguredPool].  The listing error is dropped by the code; what
    [allPools] holds then is decided outside this file.  Modelled from the
    spec: a failed listing is no match. *)
Definition isConfiguredPool (cidr : IPNet) : Prog bool :=
  let* r := call PoolsList in
  let items := match r with Ok l => l | Err _ => [] end in
  Ret (existsb (fun p => negb (poolDisabled p) && bool_decide (poolCIDR p = cidr)) items).

(** [withinConfiguredPools], with the same treatment of a failed listing. *)
Definition withinConfiguredPools (ip : IP) : Prog bool :=
  let* r := call PoolsList in
  let items := match r with Ok l => l | Err _ => [] end in
  Ret (existsb (fun p => negb (poolDisabled p) && Contains (poolCIDR p) ip) items).

(** Lines 65-94: the pools to scan, or the error returned instead. *)
Definition resolvePools (version : ipVersion) (pool : option IPNet)
  : Prog (error + list IPNet) :=
  match pool with
  | Some pool =>
      let* configured := isConfiguredPool pool in
      if negb configured
      then Ret (inl (errorsNew "The given pool (%s) does not exist" [ArgNet pool]))
      else if negb (Number version =? Version pool)
      then Ret (inl (errorsNew "The given pool (%s) does not match IP version %d"
                               [ArgNet pool; ArgInt (Number version)]))
      else Ret (inr [pool])
  | None =>
      let* r := call PoolsList in
      match r with
      | Err err => Ret (inl err)
      | Ok allPools =>
          Ret (inr (map poolCIDR
                 (List.filter (fun p => negb (poolDisabled p)
                                        && (Number version =? Version (poolCIDR p)))
                              allPools)))
      end
  end.

(** The inner loop [for subnet := blocks(); subnet != nil; subnet = blocks()]
    of lines 107-123.  [next] is what follows the loop; [None] is returned
    when [fuel] calls of the generator did not reach its sentinel. *)
Fixpoint scanBlocks (fuel : nat) (g : blockGen) (host : string) (config : IPAMConfig)
         (next : Prog (option claimResult)) : Prog (option claimResult) :=
  match fuel with
  | O => Ret None
  | S fuel' =>
      let '(subnet, g') := blocks g in
      match subnet with
      | None => next
      | Some subnet =>
          let* r := call (Get (BlockKey subnet)) in
          match r with
          | Err err =>
              if isDoesNotExist err then
                let* err := claimBlockAffinity subnet host config in
                Ret (Some (Some subnet, err))
              else Ret (Some (None, Some err))
          | Ok _ => scanBlocks fuel' g' host config next
          end
      end
  end.

(** The outer loop over the pools, lines 103-125. *)
Fixpoint scanPools (fuel : nat) (pools : list IPNet) (host : string) (config : IPAMConfig)
  : Prog (option claimResult) :=
  match pools with
  | [] => Ret (Some (None, Some (noFreeBlocksError "No Free Blocks")))
  | pool :: rest =>
      scanBlocks fuel (blockGenerator pool) host config (scanPools fuel rest host config)
  end.

Definition claimNewAffineBlock (fuel : nat) (host : string) (version : ipVersion)
           (pool : option IPNet) (config : IPAMConfig) : Prog (option claimResult) :=
  let* r := resolvePools version pool in
  match r with
  | inl err => Ret (Some (None, Some err))
  | inr pools =>
      if Nat.eqb (length pools) 0
      then Ret (Some (None, Some (errorsNew "No configured Calico pools" [])))
      else scanPools fuel pools host config
  end.

(** *** releaseBlockAffinity *)

(** Lines 236-248: delete the host's affinity record; its error is logged
    at most. *)
Definition deleteBlockAffinity (host : string) (b : AllocationBlock)
  : Prog (option error) :=
  let* _ := call (Delete (mkKV (BlockAffinityKey host (CIDR b)) VNil None)) in
  Ret None.

(** The loop [for i := 0; i < ipamEtcdRetries; i++], by the iterations
    left. *)
Fixpoint releaseLoop (retries : nat) (host : string) (blockCIDR : IPNet)
  : Prog (option error) :=
  match retries with
  | O => Ret (Some (errorsNew "Max retries hit" []))
  | S retries' =>
      let* r := call (Get (BlockKey blockCIDR)) in
      match r with
      | Err err => Ret (Some err)
      | Ok obj =>
          let* b := assertAllocationBlock (kvValue obj) in
          if match HostAffinity b with
             | Some h => negb (String.eqb h host)
             | None => false
             end
          then Ret (Some (affinityClaimedError b))
          else if empty b then
            let* err := call (Delete (mkKV (BlockKey (CIDR b)) VNil None)) in
            match err with
            | Some err =>
                if isDoesNotExist err then deleteBlockAffinity host b
                else Ret (Some err)
            | None => deleteBlockAffinity host b
            end
          else
            let b := mkBlock (CIDR b) None (StrictAffinity b) (Allocations b) in
            let obj := mkKV (kvKey obj) (VAllocationBlock b) (kvRevision obj) in
            let* r := call (Update obj) in
            match r with
            | Err err =>
                if isUpdateConflict err then releaseLoop retries' host blockCIDR
                else Ret (Some err)
            | Ok _ => deleteBlockAffinity host b
            end
      end
  end.

Definition releaseBlockAffinity (host : string) (blockCIDR : IPNet) : Prog (option error) :=
  releaseLoop ipamEtcdRetries host blockCIDR.

(** ** Concurrent callers

    Callers on any number of hosts run [claimBlockAffinity] and
    [claimNewAffineBlock] against one store.  Each call to the store is
    atomic; between two calls of one caller any other caller may run. *)

Inductive claimCall :=
| ClaimBlockAffinity (subnet : IPNet) (host : string) (config : IPAMConfig)
| ClaimNewAffineBlock (fuel : nat) (host : string) (version : ipVersion)
                      (pool : option IPNet) (config : IPAMConfig).

(** A caller's body: the call, then what it reports: the block it claimed
    and the host it claimed it for, when the call returned without error. *)
Definition runCall (c : claimCall) : Prog (option (IPNet * string)) :=
  match c with
  | ClaimBlockAffinity subnet host config =>
      let* err := claimBlockAffinity subnet host config in
      Ret (match err with None => Some (subnet, host) | Some _ => None end)
  | ClaimNewAffineBlock fuel host version pool config =>
      let* r := claimNewAffineBlock fuel host version pool config in
      Ret (match r with
           | Some (Some subnet, None) => Some (subnet, host)
           | _ => None
           end)
  end.

Record System := mkSystem {
  sysStore : Store;
  sysThreads : list (Prog (option (IPNet * string)))
}.

(** The answer of a call that failed for a reason of the datastore's own. *)
Definition failure (msg : string) (op : clientCall) : response op :=
  match op with
  | Get _ | Create _ | Update _ => Err (ErrorDatastore msg)
  | Delete _ => Some (ErrorDatastore msg)
  | PoolsList => Err (ErrorDatastore msg)
  end.

(** One atomic call: served by the store, refused with a datastore error,
    or served with the answer lost on the way back. *)
Inductive storeStep (op : clientCall) (st : Store) : response op -> Store -> Prop :=
| step_served : storeStep op st (fst (memBackend op st)) (snd (memBackend op st))
| step_refused msg : storeStep op st (failure msg op) st
| step_lost msg : storeStep op st (failure msg op) (snd (memBackend op st)).

Inductive sysStep : System -> System -> Prop :=
| sys_step st ts i op k r st' :
    ts !! i = Some (Call op k) ->
    storeStep op st r st' ->
    sysStep (mkSystem st ts) (mkSystem st' (<[i := k r]> ts)).

(** A scheduler for examples: let caller [i] make its next call, served by
    the store. *)
Definition stepThread (i : nat) (sys : System) : System :=
  match sysThreads sys !! i with
  | Some (Call op k) =>
      let '(r, st') := memBackend op (sysStore sys) in
      mkSystem st' (<[i := k r]> (sysThreads sys))
  | _ => sys
  end.

Definition schedule (order : list nat) (sys : System) : System :=
  fold_left (fun s i => stepThread i s) order sys.

(** The host recorded as the owner of a block in the store. *)
Definition ownerOf (st : Store) (cidr : IPNet) : option string :=
  match kvs st !! BlockKey cidr with
  | Some (mkEntry (VAllocationBlock b) _) => HostAffinity b
  | _ => None
  end.

(** Block records are only ever added: every block record of [st] is still
    in [st'], unchanged. *)
Definition blocksKept (st st' : Store) : Prop :=
  forall cidr e, kvs st !! BlockKey cidr = Some e -> kvs st' !! BlockKey cidr = Some e.

(** A caller that, from any later store, only adds block records, and ends
    in [Q]. *)
Fixpoint claimSafe {A : Type} (Q : A -> Store -> Prop) (p : Prog A) (st : Store) : Prop :=
  match p with
  | Ret a => Q a st
  | Panic _ => True
  | Call op k =>
      forall st1, blocksKept st st1 ->
      forall r st2, storeStep op st1 r st2 ->
        blocksKept st1 st2 /\ claimSafe Q (k r) st2
  end.

(** What a caller's report must mean: the store records that host as the
    owner of that block. *)
Definition reportHolds (r : option (IPNet * string)) (st : Store) : Prop :=
  match r with
  | Some (cidr, host) => ownerOf st cidr = Some host
  | None => True
  end.

(** ** Vocabulary of the statements *)

(** The number of addresses of a pool. *)
Definition poolSize (pool : IPNet) : Z :=
  2 ^ (maskBits (netMask pool) - maskOnes (netMask pool)).

(** A pool in canonical form: the mask has the width of the family, and
    the base address is the first address of the range it masks. *)
Definition canonicalPool (pool : IPNet) : Prop :=
  maskBits (netMask pool) = addrBits (ipFam (netIP pool))
  /\ 0 <= maskOnes (netMask pool) <= maskBits (netMask pool)
  /\ 0 <= ipInt (netIP pool)
  /\ ipInt (netIP pool) + poolSize pool <= 2 ^ maskBits (netMask pool)
  /\ ipInt (netIP pool) mod poolSize pool = 0.

(** The block at index [j] of a pool, and what the call number [j] (from
    zero) of the sequential generator returns: the block at index [j]
    while the base of the block after it is still inside the pool. *)
Definition nthBlock (pool : IPNet) (j : Z) : IPNet :=
  mkIPNet (mkIP (ipFam (netIP pool)) (ipInt (netIP pool) + j * blockSize))
          (BlockPrefixMask (getIPVersion (netIP pool))).

Definition nthCall (pool : IPNet) (j : Z) : option IPNet :=
  if (j + 1) * blockSize <? poolSize pool then Some (nthBlock pool j) else None.

(** The number of blocks the sequential generator yields. *)
Definition yieldCount (pool : IPNet) : Z := (poolSize pool - 1) / blockSize.

(** The two records [claimBlockAffinity] tries to create. *)
Definition affinityPair (host : string) (subnet : IPNet) : KVPair :=
  mkKV (BlockAffinityKey host subnet) VBlockAffinity None.

Definition claimedBlockPair (host : string) (subnet : IPNet) (config : IPAMConfig) : KVPair :=
  mkKV (BlockKey subnet)
       (VAllocationBlock (mkBlock subnet (Some host) (cfgStrictAffinity config) []))
       None.

Definition affinityKeyOnly (host : string) (cidr : IPNet) : KVPair :=
  mkKV (BlockAffinityKey host cidr) VNil None.

Definition blockKeyOnly (cidr : IPNet) : KVPair :=
  mkKV (BlockKey cidr) VNil None.

(** The affinity check of line 197. *)
Definition foreignTo (host : string) (b : AllocationBlock) : bool :=
  match HostAffinity b with
  | Some h => negb (String.eqb h host)
  | None => false
  end.

(** Line 220: [b.HostAffinity = nil]. *)
Definition clearAffinity (b : AllocationBlock) : AllocationBlock :=
  mkBlock (CIDR b) None (StrictAffinity b) (Allocations b).

(** The pair passed to [Update]: the pair that was read, with the new
    block value and the revision that was read. *)
Definition clearedPair (obj : KVPair) (b : AllocationBlock) : KVPair :=
  mkKV (kvKey obj) (VAllocationBlock (clearAffinity b)) (kvRevision obj).

(** A run that comes after the calls [tr]. *)
Definition prepend {S A : Type} (tr : list clientCall)
           (x : outcome A * S * list clientCall) : outcome A * S * list clientCall :=
  let '(o, s, tr') := x in (o, s, tr ++ tr').

(** Iterations that end in an update conflict: the block is read, no other
    host holds it, it is not empty, and the compare-and-swap is refused. *)
Inductive conflictRounds {T : Type} (h : handler T) (host : string) (cidr : IPNet)
  : nat -> T -> T -> list clientCall -> Prop :=
| conflict_none s : conflictRounds h host cidr 0 s s []
| conflict_round n s obj s1 b s2 s3 tr :
    h (Get (BlockKey cidr)) s = (Ok obj, s1) ->
    kvValue obj = VAllocationBlock b ->
    foreignTo host b = false ->
    empty b = false ->
    h (Update (clearedPair obj b)) s1 = (Err ErrorResourceUpdateConflict, s2) ->
    conflictRounds h host cidr n s2 s3 tr ->
    conflictRounds h host cidr (S n) s s3
                   (Get (BlockKey cidr) :: Update (clearedPair obj b) :: tr).

(** The sequential generator over [pool] yields exactly the blocks [l], in
    order, before its sentinel, and [fuel] calls are enough to get there. *)
Definition yieldsWithin (fuel : nat) (pool : IPNet) (l : list IPNet) : Prop :=
  (length l < fuel)%nat
  /\ outputs blocks (S (length l)) (blockGenerator pool) = map Some l ++ [None].

(** The [Get] of every block of the list, in order, finds a record. *)
Inductive allFound {T : Type} (h : handler T)
  : list IPNet -> T -> T -> list clientCall -> Prop :=
| found_nil s : allFound h [] s s []
| found_cons c l s kv s1 s2 tr :
    h (Get (BlockKey c)) s = (Ok kv, s1) ->
    allFound h l s1 s2 tr ->
    allFound h (c :: l) s s2 (Get (BlockKey c) :: tr).

(** A run whose returned value goes through [f]. *)
Definition mapOutcome {T A B : Type} (f : A -> B)
           (x : outcome A * T * list clientCall) : outcome B * T * list clientCall :=
  let '(o, s, tr) := x in
  (match o with Returned a => Returned (f a) | Panicked msg => Panicked msg end, s, tr).

(** The calls a claim makes never remove or rewrite a block record. *)
Definition addsOnly (op : clientCall) : Prop :=
  match op with
  | Get _ | Create _ | PoolsList => True
  | Delete kv => match kvKey kv with BlockAffinityKey _ _ => True | BlockKey _ => False end
  | Update _ => False
  end.

(** What a result of [claimNewAffineBlock] must mean. *)
Definition claimedHolds (host : string) (r : option claimResult) (st : Store) : Prop :=
  match r with
  | Some (Some subnet, None) => ownerOf st subnet = Some host
  | _ => True
  end.

(** Every caller is safe in the current store. *)
Definition sysSafe (sys : System) : Prop :=
  Forall (fun p => claimSafe reportHolds p (sysStore sys)) (sysThreads sys).

(** *** getAffineBlocks *)

(** [model.BlockAffinityListOptions]. *)
Record BlockAffinityListOptions := mkListOptions { optHost : string; optIPVersion : Z }.

(** Lines 53-59: the loop that collects the CIDR of every pair listed; the
    unchecked assertion [o.Key.(model.BlockAffinityKey)] panics on any other
    key. *)
Fixpoint extractCIDRs (datastoreObjs : list KVPair) (ids : list IPNet)
  : outcome (list IPNet) :=
  match datastoreObjs with
  | [] => Returned ids
  | o :: rest =>
      match kvKey o with
      | BlockAffinityKey _ cidr => extractCIDRs rest (ids ++ [cidr])
      | BlockKey _ => Panicked "interface conversion: not a model.BlockAffinityKey"
      end
  end.

(** [getAffineBlocks]; [backendList] is [rw.client.backend.List], the only
    call it makes.  The result is the slice returned (nil is the empty
    list) and the error. *)
Definition getAffineBlocks {T : Type}
           (backendList : BlockAffinityListOptions -> T -> result (list KVPair) * T)
           (host : string) (ver : ipVersion) (pool : option IPNet) (s : T)
  : outcome (list IPNet * option error) * T :=
  let opts := mkListOptions host (Number ver) in
  let '(r, s1) := backendList opts s in
  match r with
  | Err err =>
      if isDoesNotExist err then (Returned ([], None), s1)
      else (Returned ([], Some err), s1)
  | Ok datastoreObjs =>
      match extractCIDRs datastoreObjs [] with
      | Returned ids => (Returned (ids, None), s1)
      | Panicked msg => (Panicked msg, s1)
      end
  end.

(** A backend that refuses the calls [bad] selects with a datastore error
    and serves the others from the in-memory store. *)
Definition refusingBackend (bad : clientCall -> bool) : handler Store := fun op st =>
  if bad op then (failure "refused" op, st) else memBackend op st.

(** The CIDR a key names. *)
Definition keyCIDR (k : Key) : IPNet :=
  match k with BlockKey cidr => cidr | BlockAffinityKey _ cidr => cidr end.

Definition isAffinityKey (k : Key) : Prop :=
  match k with BlockAffinityKey _ _ => True | BlockKey _ => False end.

(** Every call a program can make satisfies [P]. *)
Fixpoint callsAll {A : Type} (P : clientCall -> Prop) (p : Prog A) : Prop :=
  match p with
  | Ret _ | Panic _ => True
  | Call op k => P op /\ forall r, callsAll P (k r)
  end.

(** The calls of a claim for [host]: reads, the pool listing, creations of
    affinity records of [host] and of the block records [blockOk] admits,
    and deletions of affinity records of [host]. *)
Definition claimCallOf (host : string) (blockOk : IPNet -> Prop) (op : clientCall) : Prop :=
  match op with
  | Get _ | PoolsList => True
  | Create kv =>
      match kvKey kv with
      | BlockAffinityKey h _ => h = host
      | BlockKey c => blockOk c
      end
  | Delete kv =>
      match kvKey kv with
      | BlockAffinityKey h _ => h = host
      | BlockKey _ => False
      end
  | Update _ => False
  end.

(** What a claim for [host] may do to the store: every record that is not
    an affinity record of [host] stays as it is, and the only records that
    appear are affinity records of [host] and block records [blockOk]
    admits. *)
Definition claimEffect (host : string) (blockOk : IPNet -> Prop) (st st' : Store) : Prop :=
  (forall k e, (forall c, k <> BlockAffinityKey host c) ->
               kvs st !! k = Some e -> kvs st' !! k = Some e)
  /\ (forall k, kvs st !! k = None -> is_Some (kvs st' !! k) ->
                (exists c, k = BlockKey c /\ blockOk c)
                \/ exists c, k = BlockAffinityKey host c).

(** ** The sequential generator *)

(** Masking with [ones] leading one bits out of [w] rounds an address
    below [2^w] down to a multiple of [2^(w - ones)]. *)
Lemma land_maskInt (x ones w : Z) :
  0 <= ones <= w -> 0 <= x < 2 ^ w ->
  Z.land x (maskInt (CIDRMask ones w)) = x / 2 ^ (w - ones) * 2 ^ (w - ones).
Proof.
  intros Ho Hx. unfold maskInt; simpl.
  rewrite <- Z.shiftl_mul_pow2, <- Z.shiftr_div_pow2 by lia.
  apply Z.bits_inj'; intros n Hn.
  rewrite Z.land_spec, !Z.shiftl_spec by lia.
  destruct (Z.ltb_spec n (w - ones)) as [Hlt | Hge].
  - rewrite (Z.testbit_neg_r _ (n - (w - ones))) by lia.
    rewrite (Z.testbit_neg_r _ (n - (w - ones))) by lia.
    apply andb_false_r.
  - rewrite Z.shiftr_spec by lia.
    replace (n - (w - ones) + (w - ones)) with n by lia.
    destruct (Z.ltb_spec n w) as [Hnw | Hnw].
    + rewrite Z.ones_spec_low by lia. apply andb_true_r.
    + rewrite Z.ones_spec_high by lia. rewrite andb_false_r.
      symmetry. destruct (Z.eq_dec x 0) as [-> | Hx0].
      * apply Z.bits_0.
      * apply Z.bits_above_log2; [lia |].
        apply Z.log2_lt_pow2; [lia |].
        pose proof (Z.pow_le_mono_r 2 w n). lia.
Qed.

Lemma poolSize_pos pool : canonicalPool pool -> 0 < poolSize pool.
Proof. intros (_ & Ho & _). unfold poolSize. apply Z.pow_pos_nonneg; lia. Qed.

(** In a canonical pool, [Contains] is the range check. *)
Lemma Contains_range pool x :
  canonicalPool pool ->
  Contains pool (mkIP (ipFam (netIP pool)) x) = true
  <-> ipInt (netIP pool) <= x < ipInt (netIP pool) + poolSize pool.
Proof.
  intros Hc. pose proof (poolSize_pos pool Hc) as Hpos.
  destruct Hc as (Hw & Ho & Hb0 & Hbn & Hal).
  destruct pool as [[f base] [ones w]]; unfold poolSize in *; simpl in *.
  unfold Contains; simpl.
  rewrite bool_decide_eq_true_2 by done. rewrite Hw, Z.eqb_refl. simpl.
  rewrite <- Hw.
  assert (Hbase : base / 2 ^ (w - ones) * 2 ^ (w - ones) = base).
  { pose proof (Z.div_mod base (2 ^ (w - ones))). lia. }
  split.
  - intros H.
    apply andb_prop in H as [H Hland]. apply andb_prop in H as [H0 Hlt].
    apply Z.leb_le in H0. apply Z.ltb_lt in Hlt. apply Z.eqb_eq in Hland.
    rewrite !land_maskInt in Hland by lia.
    rewrite Hbase in Hland.
    pose proof (Z.div_mod x (2 ^ (w - ones))).
    pose proof (Z.mod_pos_bound x (2 ^ (w - ones))). lia.
  - intros [Hlo Hhi].
    assert (0 <= x < 2 ^ w) by lia.
    rewrite (proj2 (Z.leb_le 0 x)) by lia.
    rewrite (proj2 (Z.ltb_lt x (2 ^ w))) by lia. simpl.
    apply Z.eqb_eq. rewrite !land_maskInt by lia. rewrite Hbase.
    f_equal.
    assert (Hq : x / 2 ^ (w - ones) = base / 2 ^ (w - ones)); [| lia].
    symmetry. apply (Z.div_unique x (2 ^ (w - ones)) _ (x - base)); lia.
Qed.

Lemma blocks_at pool j :
  canonicalPool pool -> 0 < blockSize -> 0 <= j ->
  blocks (mkBlockGen pool (getIPVersion (netIP pool))
                     (mkIP (ipFam (netIP pool)) (ipInt (netIP pool) + j * blockSize)))
  = (nthCall pool j,
     mkBlockGen pool (getIPVersion (netIP pool))
                (mkIP (ipFam (netIP pool)) (ipInt (netIP pool) + (j + 1) * blockSize))).
Proof.
  intros Hc Hb Hj. unfold blocks, nthCall, incrementIP; simpl.
  replace (ipInt (netIP pool) + j * blockSize + blockSize)
    with (ipInt (netIP pool) + (j + 1) * blockSize) by lia.
  destruct (Contains pool _) eqn:Hin.
  - apply Contains_range in Hin; [| done].
    rewrite (proj2 (Z.ltb_lt _ _)) by lia. done.
  - destruct (Z.ltb_spec ((j + 1) * blockSize) (poolSize pool)) as [Hlt | Hge]; [| done].
    assert (Contains pool (mkIP (ipFam (netIP pool))
              (ipInt (netIP pool) + (j + 1) * blockSize)) = true) as Hyes.
    { apply Contains_range; [done | nia]. }
    congruence.
Qed.

Lemma blocks_outputs pool n :
  canonicalPool pool -> 0 < blockSize ->
  forall j, 0 <= j ->
  outputs blocks n
    (mkBlockGen pool (getIPVersion (netIP pool))
                (mkIP (ipFam (netIP pool)) (ipInt (netIP pool) + j * blockSize)))
  = map (nthCall pool) (seqZ j (Z.of_nat n)).
Proof.
  intros Hc Hb. induction n as [| n IH]; intros j Hj.
  - done.
  - cbn [outputs]. rewrite blocks_at by done.
    rewrite seqZ_cons by lia. cbn [map]. f_equal.
    rewrite IH by lia. do 2 f_equal; lia.
Qed.

Lemma blockGenerator_outputs pool n :
  canonicalPool pool -> 0 < blockSize ->
  outputs blocks n (blockGenerator pool) = map (nthCall pool) (seqZ 0 (Z.of_nat n)).
Proof.
  intros Hc Hb. rewrite <- blocks_outputs by (done || lia).
  unfold blockGenerator. do 2 f_equal. destruct (netIP pool); simpl. f_equal. lia.
Qed.

Lemma nthCall_Some pool j :
  canonicalPool pool -> 0 < blockSize -> 0 <= j < yieldCount pool ->
  nthCall pool j = Some (nthBlock pool j).
Proof.
  intros Hc Hb Hj. unfold nthCall, yieldCount in *.
  rewrite (proj2 (Z.ltb_lt _ _)); [done |].
  pose proof (Z.mul_div_le (poolSize pool - 1) blockSize Hb). nia.
Qed.

Lemma nthCall_None pool j :
  canonicalPool pool -> 0 < blockSize -> yieldCount pool <= j ->
  nthCall pool j = None.
Proof.
  intros Hc Hb Hj. unfold nthCall, yieldCount in *.
  rewrite (proj2 (Z.ltb_ge _ _)); [done |].
  pose proof (Z.div_mod (poolSize pool - 1) blockSize).
  pose proof (Z.mod_pos_bound (poolSize pool - 1) blockSize Hb). nia.
Qed.

Lemma nthCall_past pool (k : nat) :
  canonicalPool pool -> 0 < blockSize ->
  forall s, yieldCount pool <= s ->
  map (nthCall pool) (seqZ s (Z.of_nat k)) = repeat None k.
Proof.
  intros Hc Hb. induction k as [| k IH]; intros s Hs; [done |].
  rewrite seqZ_cons by lia. cbn [map repeat].
  rewrite nthCall_None by done. f_equal.
  replace (Z.pred (Z.of_nat (S k))) with (Z.of_nat k) by lia.
  apply IH. lia.
Qed.

Lemma yieldCount_nonneg pool : canonicalPool pool -> 0 < blockSize -> 0 <= yieldCount pool.
Proof.
  intros Hc Hb. pose proof (poolSize_pos pool Hc). apply Z.div_pos; lia.
Qed.

(** The sequential generator yields the blocks of index below
    [yieldCount], in order, and then the sentinel on every further call. *)
Lemma blockGenerator_yields pool (m : nat) :
  canonicalPool pool -> 0 < blockSize ->
  outputs blocks (Z.to_nat (yieldCount pool) + m) (blockGenerator pool)
  = map (fun j => Some (nthBlock pool j)) (seqZ 0 (yieldCount pool)) ++ repeat None m.
Proof.
  intros Hc Hb. pose proof (yieldCount_nonneg pool Hc Hb) as Hy.
  rewrite blockGenerator_outputs by done.
  rewrite Nat2Z.inj_add, Z2Nat.id by done.
  rewrite seqZ_app by lia. rewrite map_app. f_equal.
  - apply map_ext_in. intros j Hin. apply list_elem_of_In, elem_of_seqZ in Hin.
    apply nthCall_Some; (done || lia).
  - apply nthCall_past; (done || lia).
Qed.

(** When the block size divides the pool size, the pool holds
    [poolSize / blockSize] blocks and the sequential generator stops one
    short of that. *)
Lemma yieldCount_divides pool :
  canonicalPool pool -> 0 < blockSize -> poolSize pool mod blockSize = 0 ->
  yieldCount pool = poolSize pool / blockSize - 1.
Proof.
  intros Hc Hb Hdiv. pose proof (poolSize_pos pool Hc) as Hp. unfold yieldCount.
  pose proof (Z.div_mod (poolSize pool) blockSize) as Hdm.
  symmetry. apply (Z.div_unique _ _ _ (blockSize - 1)); lia.
Qed.

(** The block the sequential generator leaves out lies inside the pool. *)
Lemma last_block_in_pool pool :
  canonicalPool pool -> 0 < blockSize -> poolSize pool mod blockSize = 0 ->
  blockSize <= poolSize pool ->
  let j := poolSize pool / blockSize - 1 in
  Contains pool (netIP (nthBlock pool j)) = true
  /\ Contains pool (incrementIP (netIP (nthBlock pool j)) (blockSize - 1)) = true
  /\ nthCall pool j = None.
Proof.
  intros Hc Hb Hdiv Hle j. pose proof (poolSize_pos pool Hc) as Hp.
  pose proof (Z.div_mod (poolSize pool) blockSize) as Hdm.
  assert (1 <= poolSize pool / blockSize) as Hq.
  { apply Z.div_le_lower_bound; lia. }
  unfold nthBlock, incrementIP; simpl. split; [| split].
  - apply Contains_range; [done |]. subst j. nia.
  - apply Contains_range; [done |]. subst j. nia.
  - apply nthCall_None; [done | done |]. rewrite yieldCount_divides by done. lia.
Qed.

(** ** The randomized generator *)

Lemma randomBlocks_outputs base v (n : nat) :
  forall (r : list Z) (i : Z),
  outputs randomBlocks n (mkRandomGen base v (rev r) i)
  = map (fun j => Some (mkIPNet (incrementIP base (j * blockSize)) (BlockPrefixMask v)))
        (take n r)
    ++ repeat None (n - length r).
Proof.
  induction n as [| n IH]; intros r i; [done |].
  destruct r as [| x r].
  - cbn [outputs randomBlocks rgIdxs rev length Nat.eqb negb].
    specialize (IH [] i). cbn [rev] in IH. rewrite IH.
    rewrite take_nil. simpl. by rewrite Nat.sub_0_r.
  - cbn [outputs]. unfold randomBlocks at 1. cbn [rgIdxs rgBaseIP rgVersion rev].
    rewrite length_app, Nat.add_comm. cbn [length Nat.add Nat.eqb negb].
    rewrite List.last_last, List.removelast_last.
    rewrite IH. done.
Qed.

(** With a permutation of the block indices, the randomized generator
    yields every block of the pool, the last one included. *)
Lemma randomBlockGenerator_yields_index randPerm pool numBlocks j :
  0 < blockSize ->
  intExp2 (maskBits (netMask pool) - maskOnes (netMask pool)) = Some (poolSize pool) ->
  numBlocks = poolSize pool / blockSize ->
  0 <= poolSize pool ->
  randPerm numBlocks ≡ₚ seqZ 0 numBlocks ->
  0 <= j < numBlocks ->
  exists g, randomBlockGenerator randPerm pool = Some g
    /\ In (Some (nthBlock pool j))
          (outputs randomBlocks (Z.to_nat numBlocks) g).
Proof.
  intros Hb Hexp -> Hp Hperm Hj.
  unfold randomBlockGenerator, Size. rewrite Hexp.
  rewrite (proj2 (Z.eqb_neq blockSize 0)) by lia.
  rewrite Z.quot_div_nonneg by lia.
  rewrite (proj2 (Z.ltb_ge _ _)) by lia.
  eexists; split; [done |].
  rewrite <- (rev_involutive (randPerm _)), randomBlocks_outputs.
  apply in_or_app; left. apply in_map_iff. exists j. split; [done |].
  rewrite take_ge.
  - apply -> in_rev. apply list_elem_of_In. rewrite Hperm. apply elem_of_seqZ. lia.
  - rewrite List.length_rev, Hperm, length_seqZ. lia.
Qed.

(** ** Running programs *)

Lemma interp_bind {S A B : Type} (h : handler S) (p : Prog A) (f : A -> Prog B) :
  forall s,
  interp h (bind p f) s
  = match interp h p s with
    | (Returned a, s1, tr1) =>
        let '(o, s2, tr2) := interp h (f a) s1 in (o, s2, tr1 ++ tr2)
    | (Panicked msg, s1, tr1) => (Panicked msg, s1, tr1)
    end.
Proof.
  induction p as [a | msg | op k IH]; intros s; simpl.
  - by destruct (interp h (f a) s) as [[o s2] tr2].
  - done.
  - destruct (h op s) as [r s1]. rewrite IH.
    destruct (interp h (k r) s1) as [[[a | msg] s2] tr]; [| done].
    by destruct (interp h (f a) s2) as [[o s3] tr3].
Qed.

(** [claimBlockAffinity] when the block record already exists, on any
    backend: the block is re-read; a block held by the caller's host is a
    success, any other block has the caller's affinity record deleted. *)
Lemma claimBlockAffinity_exists {S : Type} (h : handler S) subnet host config
      s r0 s1 s2 obj s3 b :
  h (Create (affinityPair host subnet)) s = (r0, s1) ->
  h (Create (claimedBlockPair host subnet config)) s1 = (Err ErrorResourceAlreadyExists, s2) ->
  h (Get (BlockKey subnet)) s2 = (Ok obj, s3) ->
  kvValue obj = VAllocationBlock b ->
  interp h (claimBlockAffinity subnet host config) s
  = if bool_decide (HostAffinity b = Some host)
    then (Returned None, s3,
          [Create (affinityPair host subnet);
           Create (claimedBlockPair host subnet config);
           Get (BlockKey subnet)])
    else
      let '(e, s4) := h (Delete (affinityKeyOnly host (CIDR b))) s3 in
      (Returned (Some (match e with
                       | Some err => err
                       | None => affinityClaimedError b
                       end)), s4,
       [Create (affinityPair host subnet);
        Create (claimedBlockPair host subnet config);
        Get (BlockKey subnet);
        Delete (affinityKeyOnly host (CIDR b))]).
Proof.
  intros H1 H2 H3 Hb. unfold claimBlockAffinity, affinityPair, claimedBlockPair in *.
  cbn [bind call interp newBlock CIDR Allocations]. rewrite H1. cbn [bind interp].
  rewrite H2. cbn [bind interp isAlreadyExists]. rewrite H3. cbn [bind interp].
  rewrite Hb. cbn [assertAllocationBlock bind interp].
  destruct (HostAffinity b) as [hb |] eqn:Haff.
  - destruct (String.eqb_spec hb host) as [-> | Hne].
    + rewrite bool_decide_eq_true_2 by done. done.
    + rewrite bool_decide_eq_false_2 by congruence.
      cbn [bind interp]. unfold affinityKeyOnly.
      destruct (h (Delete _) s3) as [[err |] s4]; done.
  - rewrite bool_decide_eq_false_2 by congruence.
    cbn [bind interp]. unfold affinityKeyOnly.
    destruct (h (Delete _) s3) as [[err |] s4]; done.
Qed.

(** ** The in-memory store *)

Lemma mem_get_present st k e :
  kvs st !! k = Some e ->
  memBackend (Get k) st = (Ok (mkKV k (entValue e) (Some (entRevision e))), st).
Proof. intros H. simpl. by rewrite H. Qed.

Lemma mem_get_absent st k :
  kvs st !! k = None -> memBackend (Get k) st = (Err ErrorResourceDoesNotExist, st).
Proof. intros H. simpl. by rewrite H. Qed.

Lemma mem_create_present st kv e :
  kvs st !! kvKey kv = Some e ->
  memBackend (Create kv) st = (Err ErrorResourceAlreadyExists, st).
Proof. intros H. simpl. by rewrite H. Qed.

Lemma mem_create_absent st kv :
  kvs st !! kvKey kv = None ->
  memBackend (Create kv) st
  = (Ok (mkKV (kvKey kv) (kvValue kv) (Some (clock st + 1))),
     mkStore (<[kvKey kv := mkEntry (kvValue kv) (clock st + 1)]> (kvs st))
             (clock st + 1) (pools st)).
Proof. intros H. simpl. by rewrite H. Qed.

Lemma mem_delete_absent st kv :
  kvs st !! kvKey kv = None ->
  memBackend (Delete kv) st = (Some ErrorResourceDoesNotExist, st).
Proof. intros H. simpl. by rewrite H. Qed.

Lemma mem_delete_present st kv e :
  kvs st !! kvKey kv = Some e -> kvRevision kv = None ->
  memBackend (Delete kv) st
  = (None, mkStore (delete (kvKey kv) (kvs st)) (clock st + 1) (pools st)).
Proof. intros H Hr. simpl. rewrite H. unfold revisionMatches. by rewrite Hr. Qed.

Lemma ownerOf_Some st cidr host :
  ownerOf st cidr = Some host ->
  exists b rev, kvs st !! BlockKey cidr = Some (mkEntry (VAllocationBlock b) rev)
                /\ HostAffinity b = Some host.
Proof.
  unfold ownerOf. destruct (kvs st !! BlockKey cidr) as [[[b | |] rev] |]; try done.
  intros H. by exists b, rev.
Qed.

(** A claim by the host that already holds the block, with its affinity
    record in place, succeeds and leaves the store as it is. *)
Lemma claimBlockAffinity_again st subnet host config e :
  kvs st !! BlockAffinityKey host subnet = Some e ->
  ownerOf st subnet = Some host ->
  interp memBackend (claimBlockAffinity subnet host config) st
  = (Returned None, st,
     [Create (affinityPair host subnet);
      Create (claimedBlockPair host subnet config);
      Get (BlockKey subnet)]).
Proof.
  intros Haff Hown. apply ownerOf_Some in Hown as (b & rev & Hblk & Hhost).
  erewrite claimBlockAffinity_exists.
  - by rewrite bool_decide_eq_true_2.
  - by eapply mem_create_present.
  - by eapply mem_create_present.
  - by apply mem_get_present.
  - done.
Qed.

(** The first claim of a block that has no record creates it. *)
Lemma claimBlockAffinity_fresh {S : Type} (h : handler S) subnet host config
      s r0 s1 kv s2 :
  h (Create (affinityPair host subnet)) s = (r0, s1) ->
  h (Create (claimedBlockPair host subnet config)) s1 = (Ok kv, s2) ->
  interp h (claimBlockAffinity subnet host config) s
  = (Returned None, s2,
     [Create (affinityPair host subnet); Create (claimedBlockPair host subnet config)]).
Proof.
  intros H1 H2. unfold claimBlockAffinity, affinityPair, claimedBlockPair in *.
  cbn [bind call interp newBlock CIDR Allocations]. rewrite H1. cbn [bind interp].
  rewrite H2. done.
Qed.

(** After [Create] on the in-memory store the key is occupied, and the
    other keys are as before. *)
Lemma mem_create_occupied st kv :
  is_Some (kvs (snd (memBackend (Create kv) st)) !! kvKey kv).
Proof.
  destruct (kvs st !! kvKey kv) as [e |] eqn:H.
  - erewrite mem_create_present by done. simpl. by rewrite H.
  - rewrite mem_create_absent by done. simpl. rewrite lookup_insert_eq. done.
Qed.

Lemma mem_create_other st kv k :
  k <> kvKey kv -> kvs (snd (memBackend (Create kv) st)) !! k = kvs st !! k.
Proof.
  intros Hne. destruct (kvs st !! kvKey kv) as [e |] eqn:H.
  - by erewrite mem_create_present.
  - rewrite mem_create_absent by done. simpl. by rewrite lookup_insert_ne.
Qed.

Lemma ownerOf_ext st st' cidr :
  kvs st' !! BlockKey cidr = kvs st !! BlockKey cidr -> ownerOf st' cidr = ownerOf st cidr.
Proof. unfold ownerOf. by intros ->. Qed.

(** C5. When the creation of the block record fails with already-exists
    and the block read back is held by the calling host,
    [claimBlockAffinity] returns success having issued nothing but the two
    creations and the read: no second block record, no write to the
    existing one.  Hence, from a store where the block is free or held by
    the host, two claims in sequence both succeed, the first leaves an
    existing block record as it was, and the second leaves the whole store
    as it was. *)
Theorem claimBlockAffinity_idempotent subnet host config :
  (forall (S : Type) (h : handler S) s r0 s1 s2 obj s3 b,
      h (Create (affinityPair host subnet)) s = (r0, s1) ->
      h (Create (claimedBlockPair host subnet config)) s1
        = (Err ErrorResourceAlreadyExists, s2) ->
      h (Get (BlockKey subnet)) s2 = (Ok obj, s3) ->
      kvValue obj = VAllocationBlock b ->
      HostAffinity b = Some host ->
      interp h (claimBlockAffinity subnet host config) s
      = (Returned None, s3,
         [Create (affinityPair host subnet);
          Create (claimedBlockPair host subnet config);
          Get (BlockKey subnet)]))
  /\ (forall st,
      kvs st !! BlockKey subnet = None \/ ownerOf st subnet = Some host ->
      exists st1 tr1,
        interp memBackend (claimBlockAffinity subnet host config) st
          = (Returned None, st1, tr1)
        /\ (forall e, kvs st !! BlockKey subnet = Some e ->
                      kvs st1 !! BlockKey subnet = Some e)
        /\ ownerOf st1 subnet = Some host
        /\ interp memBackend (claimBlockAffinity subnet host config) st1
           = (Returned None, st1,
              [Create (affinityPair host subnet);
               Create (claimedBlockPair host subnet config);
               Get (BlockKey subnet)])).
Proof.
  split.
  - intros S h s r0 s1 s2 obj s3 b H1 H2 H3 Hv Hb.
    erewrite claimBlockAffinity_exists by done.
    by rewrite bool_decide_eq_true_2.
  - intros st Hst.
    destruct (memBackend (Create (affinityPair host subnet)) st) as [r0 sa] eqn:Hca.
    pose proof (mem_create_occupied st (affinityPair host subnet)) as [ea Hocc].
    pose proof (mem_create_other st (affinityPair host subnet) (BlockKey subnet)) as Hoth.
    rewrite Hca in Hocc, Hoth. simpl in Hocc, Hoth.
    specialize (Hoth ltac:(done)).
    destruct Hst as [Hfree | Hown].
    + pose proof (mem_create_absent sa (claimedBlockPair host subnet config)) as Hcb.
      simpl in Hcb. specialize (Hcb ltac:(by rewrite Hoth)).
      eexists _, _. split; [by eapply claimBlockAffinity_fresh |].
      split; [intros e He; congruence |].
      assert (ownerOf (mkStore
                (<[BlockKey subnet :=
                     mkEntry (VAllocationBlock
                                (mkBlock subnet (Some host) (cfgStrictAffinity config) []))
                             (clock sa + 1)]> (kvs sa))
                (clock sa + 1) (pools sa)) subnet = Some host) as Hown.
      { unfold ownerOf. simpl. by rewrite lookup_insert_eq. }
      split; [done |].
      eapply claimBlockAffinity_again; [| done].
      simpl. rewrite lookup_insert_ne by done. done.
    + assert (ownerOf sa subnet = Some host) as Hown'.
      { by rewrite (ownerOf_ext st sa). }
      destruct (ownerOf_Some _ _ _ Hown') as (b & rev & Hblk & Hhost).
      eexists _, _. split.
      { erewrite claimBlockAffinity_exists.
        - by rewrite bool_decide_eq_true_2.
        - done.
        - by eapply mem_create_present.
        - by apply mem_get_present.
        - done. }
      split; [intros e He; congruence |].
      split; [done |].
      by eapply claimBlockAffinity_again.
Qed.

(** C6. When the creation of the block record fails with already-exists
    and the block read back, stored under its own CIDR, has no affinity or
    that of another host, [claimBlockAffinity] deletes the affinity record
    of (host, cidr); a failed delete is returned as the error, otherwise
    the error is [affinityClaimedError] carrying the block read back. *)
Theorem claimBlockAffinity_lost_race {S : Type} (h : handler S) subnet host config
        s r0 s1 s2 obj s3 b e s4 :
  h (Create (affinityPair host subnet)) s = (r0, s1) ->
  h (Create (claimedBlockPair host subnet config)) s1
    = (Err ErrorResourceAlreadyExists, s2) ->
  h (Get (BlockKey subnet)) s2 = (Ok obj, s3) ->
  kvValue obj = VAllocationBlock b ->
  CIDR b = subnet ->
  HostAffinity b <> Some host ->
  h (Delete (affinityKeyOnly host subnet)) s3 = (e, s4) ->
  interp h (claimBlockAffinity subnet host config) s
  = (Returned (Some (match e with
                     | Some err => err
                     | None => affinityClaimedError b
                     end)), s4,
     [Create (affinityPair host subnet);
      Create (claimedBlockPair host subnet config);
      Get (BlockKey subnet);
      Delete (affinityKeyOnly host subnet)]).
Proof.
  intros H1 H2 H3 Hv Hc Hb Hd.
  erewrite claimBlockAffinity_exists by done.
  rewrite bool_decide_eq_false_2 by done. rewrite Hc, Hd. done.
Qed.

(** ** releaseBlockAffinity *)

Lemma foreignTo_true host b :
  foreignTo host b = true <-> exists h, HostAffinity b = Some h /\ h <> host.
Proof.
  unfold foreignTo. destruct (HostAffinity b) as [h |].
  - destruct (String.eqb_spec h host) as [-> | Hne]; simpl.
    + split; [done |]. intros (h' & [= <-] & Hne). done.
    + split; [| done]. intros _. by exists h.
  - split; [done |]. by intros (h & ? & _).
Qed.

Lemma foreignTo_false host b :
  foreignTo host b = false <-> HostAffinity b = None \/ HostAffinity b = Some host.
Proof.
  unfold foreignTo. destruct (HostAffinity b) as [h |].
  - destruct (String.eqb_spec h host) as [-> | Hne]; simpl.
    + split; [by right |]. done.
    + split; [done |]. intros [? | [= ?]]; done.
  - split; [by left | done].
Qed.

(** One iteration of the loop on any backend, once the block was read. *)
Lemma releaseLoop_iteration {S : Type} (h : handler S) n host cidr s obj s1 b :
  h (Get (BlockKey cidr)) s = (Ok obj, s1) ->
  kvValue obj = VAllocationBlock b ->
  interp h (releaseLoop (Datatypes.S n) host cidr) s
  = if foreignTo host b
    then (Returned (Some (affinityClaimedError b)), s1, [Get (BlockKey cidr)])
    else if empty b then
      let '(e, s2) := h (Delete (blockKeyOnly (CIDR b))) s1 in
      if match e with Some err => isDoesNotExist err | None => true end
      then
        let '(_, s3) := h (Delete (affinityKeyOnly host (CIDR b))) s2 in
        (Returned None, s3,
         [Get (BlockKey cidr); Delete (blockKeyOnly (CIDR b));
          Delete (affinityKeyOnly host (CIDR b))])
      else (Returned e, s2, [Get (BlockKey cidr); Delete (blockKeyOnly (CIDR b))])
    else
      let '(r, s2) := h (Update (clearedPair obj b)) s1 in
      match r with
      | Ok _ =>
          let '(_, s3) := h (Delete (affinityKeyOnly host (CIDR b))) s2 in
          (Returned None, s3,
           [Get (BlockKey cidr); Update (clearedPair obj b);
            Delete (affinityKeyOnly host (CIDR b))])
      | Err err =>
          if isUpdateConflict err
          then prepend [Get (BlockKey cidr); Update (clearedPair obj b)]
                       (interp h (releaseLoop n host cidr) s2)
          else (Returned (Some err), s2, [Get (BlockKey cidr); Update (clearedPair obj b)])
      end.
Proof.
  intros Hget Hv. cbn [releaseLoop bind call interp]. rewrite Hget.
  cbn [bind interp]. rewrite Hv. cbn [assertAllocationBlock bind interp].
  fold (foreignTo host b). destruct (foreignTo host b); [done |].
  destruct (empty b).
  - cbn [bind interp]. fold (blockKeyOnly (CIDR b)).
    destruct (h (Delete (blockKeyOnly (CIDR b))) s1) as [[err |] s2].
    + destruct (isDoesNotExist err); [| done].
      unfold deleteBlockAffinity. cbn [bind call interp].
      fold (affinityKeyOnly host (CIDR b)).
      destruct (h (Delete (affinityKeyOnly host (CIDR b))) s2) as [e3 s3]. done.
    + unfold deleteBlockAffinity. cbn [bind call interp].
      fold (affinityKeyOnly host (CIDR b)).
      destruct (h (Delete (affinityKeyOnly host (CIDR b))) s2) as [e3 s3]. done.
  - cbn [bind interp]. fold (clearAffinity b). fold (clearedPair obj b).
    destruct (h (Update (clearedPair obj b)) s1) as [[kv | err] s2].
    + unfold deleteBlockAffinity. cbn [bind call interp].
      change (CIDR (clearAffinity b)) with (CIDR b).
      fold (affinityKeyOnly host (CIDR b)).
      destruct (h (Delete (affinityKeyOnly host (CIDR b))) s2) as [e3 s3]. done.
    + destruct (isUpdateConflict err); [| done].
      unfold prepend.
      destruct (interp h (releaseLoop n host cidr) s2) as [[o s3] tr]. done.
Qed.

Lemma mem_delete_kvs st kv :
  kvRevision kv = None ->
  kvs (snd (memBackend (Delete kv) st)) = delete (kvKey kv) (kvs st).
Proof.
  intros Hr. destruct (kvs st !! kvKey kv) as [e |] eqn:H.
  - by erewrite mem_delete_present.
  - rewrite mem_delete_absent by done. simpl. symmetry. by apply delete_id.
Qed.

(** One iteration on the in-memory store, for a block stored under its own
    CIDR that no other host holds: the block record is deleted when the
    block is empty and otherwise rewritten, by compare-and-swap on the
    revision read, with its affinity cleared; then the affinity record of
    the host is deleted. *)
Lemma releaseLoop_unopposed n st cidr b rev host :
  kvs st !! BlockKey cidr = Some (mkEntry (VAllocationBlock b) rev) ->
  CIDR b = cidr ->
  foreignTo host b = false ->
  exists st',
    interp memBackend (releaseLoop (S n) host cidr) st
    = (Returned None, st',
       if empty b
       then [Get (BlockKey cidr); Delete (blockKeyOnly cidr);
             Delete (affinityKeyOnly host cidr)]
       else [Get (BlockKey cidr);
             Update (mkKV (BlockKey cidr) (VAllocationBlock (clearAffinity b)) (Some rev));
             Delete (affinityKeyOnly host cidr)])
    /\ kvs st'
       = delete (BlockAffinityKey host cidr)
           (if empty b
            then delete (BlockKey cidr) (kvs st)
            else <[BlockKey cidr := mkEntry (VAllocationBlock (clearAffinity b))
                                            (clock st + 1)]> (kvs st)).
Proof.
  intros Hblk Hc Hf.
  erewrite releaseLoop_iteration; [| by apply mem_get_present | done].
  rewrite Hf, Hc. destruct (empty b).
  - erewrite (mem_delete_present st (blockKeyOnly cidr)) by done.
    cbn match.
    destruct (memBackend (Delete (affinityKeyOnly host cidr)) _) as [e3 s3] eqn:Hd.
    eexists; split; [done |].
    change s3 with (snd (e3, s3)). rewrite <- Hd.
    by rewrite mem_delete_kvs.
  - unfold clearedPair. cbn [kvKey kvRevision entRevision].
    assert (memBackend
              (Update (mkKV (BlockKey cidr) (VAllocationBlock (clearAffinity b)) (Some rev)))
              st
            = (Ok (mkKV (BlockKey cidr) (VAllocationBlock (clearAffinity b))
                        (Some (clock st + 1))),
               mkStore (<[BlockKey cidr := mkEntry (VAllocationBlock (clearAffinity b))
                                                   (clock st + 1)]> (kvs st))
                       (clock st + 1) (pools st))) as Hupd.
    { simpl. rewrite Hblk. unfold revisionMatches. simpl. by rewrite Z.eqb_refl. }
    rewrite Hupd.
    destruct (memBackend (Delete (affinityKeyOnly host cidr)) _) as [e3 s3] eqn:Hd.
    eexists; split; [done |].
    change s3 with (snd (e3, s3)). rewrite <- Hd.
    by rewrite mem_delete_kvs.
Qed.

(** Each such iteration uses up one retry, and the loop starts over with a
    fresh read. *)
Lemma releaseLoop_retries {S : Type} (h : handler S) host cidr k n s s' tr :
  conflictRounds h host cidr k s s' tr ->
  interp h (releaseLoop (k + n) host cidr) s
  = prepend tr (interp h (releaseLoop n host cidr) s').
Proof.
  induction 1 as [s | k s obj s1 b s2 s3 tr Hget Hv Hf He Hupd _ IH].
  - simpl. by destruct (interp h (releaseLoop n host cidr) s) as [[o s2] tr].
  - change (Datatypes.S k + n)%nat with (Datatypes.S (k + n)).
    erewrite releaseLoop_iteration by done.
    rewrite Hf, He, Hupd. cbn [isUpdateConflict]. rewrite IH.
    unfold prepend.
    by destruct (interp h (releaseLoop n host cidr) s3) as [[o s4] tr'].
Qed.

(** C7. Releasing, for host [H2], a block whose record names another host
    [H1] fails with [affinityClaimedError] carrying the block read, and the
    read is the only call made: on any backend, and on the in-memory store,
    which is left as it was. *)
Theorem releaseBlockAffinity_rejects_foreign_host cidr b H1 H2 :
  (0 < ipamEtcdRetries)%nat ->
  HostAffinity b = Some H1 ->
  H1 <> H2 ->
  (forall (S : Type) (h : handler S) s obj s1,
      h (Get (BlockKey cidr)) s = (Ok obj, s1) ->
      kvValue obj = VAllocationBlock b ->
      interp h (releaseBlockAffinity H2 cidr) s
      = (Returned (Some (affinityClaimedError b)), s1, [Get (BlockKey cidr)]))
  /\ (forall st rev,
      kvs st !! BlockKey cidr = Some (mkEntry (VAllocationBlock b) rev) ->
      interp memBackend (releaseBlockAffinity H2 cidr) st
      = (Returned (Some (affinityClaimedError b)), st, [Get (BlockKey cidr)])).
Proof.
  intros Hn Haff Hne. unfold releaseBlockAffinity.
  destruct ipamEtcdRetries as [| n]; [lia |].
  assert (foreignTo H2 b = true) as Hf by (apply foreignTo_true; eauto).
  split.
  - intros S h s obj s1 Hget Hv.
    erewrite releaseLoop_iteration by done. by rewrite Hf.
  - intros st rev Hblk.
    erewrite releaseLoop_iteration; [| by apply mem_get_present | done].
    by rewrite Hf.
Qed.

(** C8. With the block stored under its CIDR and held by [host], and the
    in-memory store serving every call, [releaseBlockAffinity host cidr]
    succeeds within the first iteration (one read): an empty block has its
    record deleted, a non-empty one is rewritten with the affinity cleared
    by compare-and-swap on the revision read, and the affinity record of
    (host, cidr) is deleted. *)
Theorem releaseBlockAffinity_converges st cidr b rev host :
  (0 < ipamEtcdRetries)%nat ->
  kvs st !! BlockKey cidr = Some (mkEntry (VAllocationBlock b) rev) ->
  CIDR b = cidr ->
  HostAffinity b = Some host ->
  exists st',
    interp memBackend (releaseBlockAffinity host cidr) st
    = (Returned None, st',
       if empty b
       then [Get (BlockKey cidr); Delete (blockKeyOnly cidr);
             Delete (affinityKeyOnly host cidr)]
       else [Get (BlockKey cidr);
             Update (mkKV (BlockKey cidr) (VAllocationBlock (clearAffinity b)) (Some rev));
             Delete (affinityKeyOnly host cidr)])
    /\ kvs st'
       = delete (BlockAffinityKey host cidr)
           (if empty b
            then delete (BlockKey cidr) (kvs st)
            else <[BlockKey cidr := mkEntry (VAllocationBlock (clearAffinity b))
                                            (clock st + 1)]> (kvs st)).
Proof.
  intros Hn Hblk Hc Haff. unfold releaseBlockAffinity.
  destruct ipamEtcdRetries as [| n]; [lia |].
  apply releaseLoop_unopposed; [done | done |].
  apply foreignTo_false. by right.
Qed.

(** C10. A block whose record has no host affinity is released for any
    host [host] as if that host held it: no [affinityClaimedError]; the
    record is deleted when the block is empty and otherwise rewritten by
    compare-and-swap with its affinity still absent; then the affinity
    record of (host, cidr) is deleted. *)
Theorem releaseBlockAffinity_unaffiliated st cidr b rev host :
  (0 < ipamEtcdRetries)%nat ->
  kvs st !! BlockKey cidr = Some (mkEntry (VAllocationBlock b) rev) ->
  CIDR b = cidr ->
  HostAffinity b = None ->
  exists st',
    interp memBackend (releaseBlockAffinity host cidr) st
    = (Returned None, st',
       if empty b
       then [Get (BlockKey cidr); Delete (blockKeyOnly cidr);
             Delete (affinityKeyOnly host cidr)]
       else [Get (BlockKey cidr);
             Update (mkKV (BlockKey cidr) (VAllocationBlock (clearAffinity b)) (Some rev));
             Delete (affinityKeyOnly host cidr)])
    /\ kvs st' !! BlockKey cidr
       = (if empty b then None
          else Some (mkEntry (VAllocationBlock b) (clock st + 1)))
    /\ kvs st' !! BlockAffinityKey host cidr = None.
Proof.
  intros Hn Hblk Hc Haff. unfold releaseBlockAffinity.
  destruct ipamEtcdRetries as [| n]; [lia |].
  destruct (releaseLoop_unopposed n st cidr b rev host) as (st' & Hrun & Hkvs);
    [done | done | apply foreignTo_false; by left |].
  exists st'. split; [done |]. rewrite Hkvs. split.
  - rewrite lookup_delete_ne by done. destruct (empty b).
    + apply lookup_delete_eq.
    + rewrite lookup_insert_eq. do 3 f_equal.
      destruct b; unfold clearAffinity; simpl in *. by subst.
  - apply lookup_delete_eq.
Qed.

(** C9. An iteration that ends in an update conflict is followed by a
    fresh read and a new iteration.  When the first compare-and-swap is
    refused with a conflict and the second is accepted,
    [releaseBlockAffinity] succeeds in its second iteration; when every
    iteration up to [ipamEtcdRetries] ends in a conflict, it fails with
    "Max retries hit". *)
Theorem releaseBlockAffinity_conflict_retry {S : Type} (h : handler S) host cidr :
  (forall k n s s' tr,
      ipamEtcdRetries = (k + n)%nat ->
      conflictRounds h host cidr k s s' tr ->
      interp h (releaseBlockAffinity host cidr) s
      = prepend tr (interp h (releaseLoop n host cidr) s'))
  /\ (forall s s2 tr obj s3 b kv s4 e s5,
      (2 <= ipamEtcdRetries)%nat ->
      conflictRounds h host cidr 1 s s2 tr ->
      h (Get (BlockKey cidr)) s2 = (Ok obj, s3) ->
      kvValue obj = VAllocationBlock b ->
      foreignTo host b = false ->
      empty b = false ->
      h (Update (clearedPair obj b)) s3 = (Ok kv, s4) ->
      h (Delete (affinityKeyOnly host (CIDR b))) s4 = (e, s5) ->
      interp h (releaseBlockAffinity host cidr) s
      = (Returned None, s5,
         tr ++ [Get (BlockKey cidr); Update (clearedPair obj b);
                Delete (affinityKeyOnly host (CIDR b))]))
  /\ (forall s s' tr,
      conflictRounds h host cidr ipamEtcdRetries s s' tr ->
      interp h (releaseBlockAffinity host cidr) s
      = (Returned (Some (errorsNew "Max retries hit" [])), s', tr)).
Proof.
  unfold releaseBlockAffinity. split; [| split].
  - intros k n s s' tr -> Hr. by apply releaseLoop_retries.
  - intros s s2 tr obj s3 b kv s4 e s5 Hn Hr Hget Hv Hf He Hupd Hdel.
    destruct ipamEtcdRetries as [| [| n]]; [lia | lia |].
    change (Datatypes.S (Datatypes.S n)) with (1 + Datatypes.S n)%nat.
    erewrite releaseLoop_retries by done.
    erewrite releaseLoop_iteration by done.
    rewrite Hf, He, Hupd, Hdel. done.
  - intros s s' tr Hr.
    rewrite <- (Nat.add_0_r ipamEtcdRetries).
    erewrite releaseLoop_retries by done. simpl. by rewrite app_nil_r.
Qed.

(** ** claimNewAffineBlock *)

Lemma prepend_app {T A : Type} tr1 tr2 (x : outcome A * T * list clientCall) :
  prepend tr1 (prepend tr2 x) = prepend (tr1 ++ tr2) x.
Proof. destruct x as [[o s] tr]. simpl. by rewrite app_assoc. Qed.

Lemma prepend_nil {T A : Type} (x : outcome A * T * list clientCall) :
  prepend [] x = x.
Proof. by destruct x as [[o s] tr]. Qed.

Lemma allFound_app {T : Type} (h : handler T) l1 l2 s s' tr :
  allFound h (l1 ++ l2) s s' tr ->
  exists s1 tr1 tr2,
    allFound h l1 s s1 tr1 /\ allFound h l2 s1 s' tr2 /\ tr = tr1 ++ tr2.
Proof.
  revert s tr. induction l1 as [| c l1 IH]; intros s tr H.
  - exists s, [], tr. split; [constructor | done].
  - inversion H as [| c' l' s0 kv s1 s2 tr' Hget Hrest]; subst.
    destruct (IH _ _ Hrest) as (sm & tr1 & tr2 & H1 & H2 & ->).
    exists sm, (Get (BlockKey c) :: tr1), tr2.
    split; [by econstructor | done].
Qed.

Lemma interp_call_step {T A : Type} (h : handler T) op (k : response op -> Prog A) s r s1 :
  h op s = (r, s1) ->
  interp h (Call op k) s = prepend [op] (interp h (k r) s1).
Proof.
  intros H. cbn [interp]. rewrite H.
  by destruct (interp h (k r) s1) as [[o s2] tr].
Qed.

(** The inner loop over blocks that are all found: it falls through to
    what follows the loop. *)
Lemma scanBlocks_all_found {T : Type} (h : handler T) host config next l :
  forall fuel g s s' tr,
  (length l < fuel)%nat ->
  outputs blocks (S (length l)) g = map Some l ++ [None] ->
  allFound h l s s' tr ->
  interp h (scanBlocks fuel g host config next) s = prepend tr (interp h next s').
Proof.
  induction l as [| c l IH]; intros fuel g s s' tr Hfuel Hout Hfound;
    (destruct fuel as [| fuel]; [simpl in Hfuel; lia |]);
    cbn [outputs length] in Hout; cbn [scanBlocks];
    destruct (blocks g) as [o g'] eqn:Hb; simpl in Hout.
  - inversion Hfound; subst. injection Hout as ->. by rewrite prepend_nil.
  - inversion Hfound as [| c' l' s0 kv s1 s2 tr' Hget Hrest]; subst.
    injection Hout as -> Hout.
    cbn [bind call]. erewrite interp_call_step by done. cbn [bind].
    erewrite IH; [| simpl in Hfuel; lia | done | done].
    by rewrite prepend_app.
Qed.

(** The inner loop up to the first block that is not found: the claim of
    that block is the result. *)
Lemma scanBlocks_first_free {T : Type} (h : handler T) host config next pre c :
  forall fuel g s s1 tr s2,
  (length pre < fuel)%nat ->
  outputs blocks (S (length pre)) g = map Some pre ++ [Some c] ->
  allFound h pre s s1 tr ->
  h (Get (BlockKey c)) s1 = (Err ErrorResourceDoesNotExist, s2) ->
  interp h (scanBlocks fuel g host config next) s
  = prepend (tr ++ [Get (BlockKey c)])
      (mapOutcome (fun err => Some (Some c, err))
                  (interp h (claimBlockAffinity c host config) s2)).
Proof.
  induction pre as [| c0 pre IH]; intros fuel g s s1 tr s2 Hfuel Hout Hfound Hget;
    (destruct fuel as [| fuel]; [simpl in Hfuel; lia |]);
    cbn [outputs length] in Hout; cbn [scanBlocks];
    destruct (blocks g) as [o g'] eqn:Hb; simpl in Hout.
  - inversion Hfound; subst. injection Hout as ->.
    cbn [bind call]. erewrite interp_call_step by done.
    cbn [bind isDoesNotExist]. rewrite interp_bind.
    destruct (interp h (claimBlockAffinity c host config) s2) as [[[err | msg] s3] tr3];
      simpl; by rewrite ?app_nil_r.
  - inversion Hfound as [| c' l' s0 kv s1' s2' tr' Hget0 Hrest]; subst.
    injection Hout as -> Hout.
    cbn [bind call]. erewrite interp_call_step by done. cbn [bind].
    erewrite IH; [| simpl in Hfuel; lia | done | done | done].
    by rewrite prepend_app.
Qed.

Lemma outputs_take {G : Type} (next : G -> option IPNet * G) (n m : nat) :
  forall g, take n (outputs next (n + m) g) = outputs next n g.
Proof.
  induction n as [| n IH]; intros g; [done |].
  cbn [Nat.add outputs]. destruct (next g) as [o g']. cbn [take]. by rewrite IH.
Qed.

Lemma yieldsWithin_prefix fuel pool pre c rest :
  yieldsWithin fuel pool (pre ++ c :: rest) ->
  (length pre < fuel)%nat
  /\ outputs blocks (S (length pre)) (blockGenerator pool) = map Some pre ++ [Some c].
Proof.
  intros [Hfuel Hout]. rewrite length_app in Hfuel, Hout. simpl in Hfuel. split; [lia |].
  rewrite <- (outputs_take blocks (S (length pre)) (S (length rest))).
  replace (S (length pre) + S (length rest))%nat
    with (S (length pre + length (c :: rest))) by (simpl; lia).
  rewrite Hout, map_app, <- app_assoc. cbn [map].
  replace (S (length pre)) with (length (map Some pre) + 1)%nat
    by (rewrite length_map; lia).
  by rewrite take_app_add.
Qed.

(** The outer loop when every block of every pool is found. *)
Lemma scanPools_all_found {T : Type} (h : handler T) fuel host config pools candss :
  Forall2 (yieldsWithin fuel) pools candss ->
  forall s s' tr,
  allFound h (concat candss) s s' tr ->
  interp h (scanPools fuel pools host config) s
  = (Returned (Some (None, Some (noFreeBlocksError "No Free Blocks"))), s', tr).
Proof.
  induction 1 as [| pool l pools candss [Hfuel Hout] _ IH]; intros s s' tr Hfound.
  - inversion Hfound; subst. done.
  - cbn [concat] in Hfound.
    apply allFound_app in Hfound as (s1 & tr1 & tr2 & H1 & H2 & ->).
    cbn [scanPools]. erewrite scanBlocks_all_found by done.
    by rewrite (IH _ _ _ H2).
Qed.

(** The outer loop up to the first block, over all pools in order, that is
    not found. *)
Lemma scanPools_first_free {T : Type} (h : handler T) fuel host config pools candss :
  Forall2 (yieldsWithin fuel) pools candss ->
  forall pre c post s s1 tr s2,
  concat candss = pre ++ c :: post ->
  allFound h pre s s1 tr ->
  h (Get (BlockKey c)) s1 = (Err ErrorResourceDoesNotExist, s2) ->
  interp h (scanPools fuel pools host config) s
  = prepend (tr ++ [Get (BlockKey c)])
      (mapOutcome (fun err => Some (Some c, err))
                  (interp h (claimBlockAffinity c host config) s2)).
Proof.
  induction 1 as [| pool l pools candss Hy _ IH];
    intros pre c post s s1 tr s2 Hcat Hfound Hget.
  - by destruct pre.
  - cbn [concat] in Hcat. cbn [scanPools].
    apply app_eq_inv in Hcat as [(k & -> & Hk) | (k & -> & Hk)].
    + destruct k as [| c' k].
      * rewrite app_nil_r in Hy. destruct Hy as [Hfuel Hout]. simpl in Hk.
        erewrite scanBlocks_all_found by done.
        erewrite (IH [] c post s1 s1 [] s2); [| done | constructor | done].
        by rewrite prepend_app.
      * injection Hk as <- _.
        apply yieldsWithin_prefix in Hy as [Hfuel Hout].
        by eapply scanBlocks_first_free.
    + destruct Hy as [Hfuel Hout].
      apply allFound_app in Hfound as (sm & tr1 & tr2 & H1 & H2 & ->).
      erewrite scanBlocks_all_found by done.
      erewrite (IH k c post sm s1 tr2 s2) by done.
      by rewrite prepend_app, app_assoc.
Qed.

(** For a canonical pool, enough fuel exists: one call more than the
    blocks yielded. *)
Lemma blockGenerator_yieldsWithin pool :
  canonicalPool pool -> 0 < blockSize ->
  yieldsWithin (S (Z.to_nat (yieldCount pool))) pool
               (map (nthBlock pool) (seqZ 0 (yieldCount pool))).
Proof.
  intros Hc Hb. pose proof (yieldCount_nonneg pool Hc Hb) as Hy.
  unfold yieldsWithin. rewrite length_map, length_seqZ. split; [lia |].
  replace (S (Z.to_nat (yieldCount pool))) with (Z.to_nat (yieldCount pool) + 1)%nat by lia.
  rewrite blockGenerator_yields by done. by rewrite map_map.
Qed.

(** C4. Once the pools are resolved, [claimNewAffineBlock] reads the block
    record of each candidate of the sequential generator, pool after pool;
    candidates that are found are passed over; at the first candidate
    whose read reports does-not-exist it runs [claimBlockAffinity] on it
    and returns that candidate with the outcome of the claim, whatever it
    is; and when every candidate of every pool is found it returns the
    "No Free Blocks" error. *)
Theorem claimNewAffineBlock_scan {T : Type} (h : handler T) fuel host version pool config
        s pools s1 tr1 candss :
  interp h (resolvePools version pool) s = (Returned (inr pools), s1, tr1) ->
  pools <> [] ->
  Forall2 (yieldsWithin fuel) pools candss ->
  (forall pre c post s2 tr s3,
      concat candss = pre ++ c :: post ->
      allFound h pre s1 s2 tr ->
      h (Get (BlockKey c)) s2 = (Err ErrorResourceDoesNotExist, s3) ->
      interp h (claimNewAffineBlock fuel host version pool config) s
      = prepend (tr1 ++ tr ++ [Get (BlockKey c)])
          (mapOutcome (fun err => Some (Some c, err))
                      (interp h (claimBlockAffinity c host config) s3)))
  /\ (forall s2 tr,
      allFound h (concat candss) s1 s2 tr ->
      interp h (claimNewAffineBlock fuel host version pool config) s
      = (Returned (Some (None, Some (noFreeBlocksError "No Free Blocks"))),
         s2, tr1 ++ tr)).
Proof.
  intros Hres Hne Hy.
  assert (interp h (claimNewAffineBlock fuel host version pool config) s
          = prepend tr1 (interp h (scanPools fuel pools host config) s1)) as Hrun.
  { unfold claimNewAffineBlock. rewrite interp_bind, Hres.
    destruct pools as [| p ps]; [done |]. cbn [length Nat.eqb].
    by destruct (interp h (scanPools fuel (p :: ps) host config) s1) as [[o s2] tr]. }
  split.
  - intros pre c post s2 tr s3 Hcat Hfound Hget.
    rewrite Hrun. erewrite scanPools_first_free by done.
    by rewrite prepend_app.
  - intros s2 tr Hfound. rewrite Hrun.
    by erewrite scanPools_all_found.
Qed.

(** ** No double ownership *)

Lemma blocksKept_refl st : blocksKept st st.
Proof. by intros cidr e. Qed.

Lemma blocksKept_trans st1 st2 st3 :
  blocksKept st1 st2 -> blocksKept st2 st3 -> blocksKept st1 st3.
Proof. intros H12 H23 cidr e He. by apply H23, H12. Qed.

Lemma ownerOf_kept st st' cidr host :
  blocksKept st st' -> ownerOf st cidr = Some host -> ownerOf st' cidr = Some host.
Proof.
  intros Hk Hown. destruct (ownerOf_Some _ _ _ Hown) as (b & rev & Hblk & Hhost).
  unfold ownerOf. by rewrite (Hk _ _ Hblk).
Qed.

Lemma memBackend_kept op st :
  addsOnly op -> blocksKept st (snd (memBackend op st)).
Proof.
  intros Hop cidr e He. destruct op as [k | kv | kv | kv |]; simpl in *; try done.
  - by destruct (kvs st !! k).
  - destruct (kvs st !! kvKey kv) eqn:Hk; [done |]. simpl.
    rewrite lookup_insert_ne; [done |]. congruence.
  - destruct (kvKey kv) as [| host c] eqn:Hkey; [done |].
    destruct (kvs st !! BlockAffinityKey host c); [| done].
    destruct (revisionMatches kv _); [| done]. simpl.
    by rewrite lookup_delete_ne.
Qed.

Lemma storeStep_kept op st r st' :
  addsOnly op -> storeStep op st r st' -> blocksKept st st'.
Proof.
  intros Hop Hstep. destruct Hstep.
  - by apply memBackend_kept.
  - apply blocksKept_refl.
  - by apply memBackend_kept.
Qed.

Lemma claimSafe_mono {A : Type} (Q : A -> Store -> Prop) (p : Prog A) st st' :
  (forall a s s', blocksKept s s' -> Q a s -> Q a s') ->
  blocksKept st st' -> claimSafe Q p st -> claimSafe Q p st'.
Proof.
  intros HQ Hk Hp. destruct p as [a | msg | op k]; simpl in *.
  - by eapply HQ.
  - done.
  - intros st1 Hk1. apply Hp. by eapply blocksKept_trans.
Qed.

Lemma claimSafe_bind {A B : Type} (Q : A -> Store -> Prop) (Q' : B -> Store -> Prop)
      (p : Prog A) (f : A -> Prog B) :
  (forall a st, Q a st -> claimSafe Q' (f a) st) ->
  forall st, claimSafe Q p st -> claimSafe Q' (bind p f) st.
Proof.
  intros Hf. induction p as [a | msg | op k IH]; intros st Hp; simpl in *.
  - by apply Hf.
  - done.
  - intros st1 Hk1 r st2 Hstep. destruct (Hp st1 Hk1 r st2 Hstep) as [Hk2 Hrest].
    split; [done |]. by apply IH.
Qed.

(** A call that was answered with a value was served by the store. *)
Lemma storeStep_Ok_get k st kv st' :
  storeStep (Get k) st (Ok kv) st' ->
  st' = st /\ exists e, kvs st !! k = Some e /\ kvValue kv = entValue e.
Proof.
  inversion 1 as [Hr Hs | |]; subst.
  simpl in *. destruct (kvs st !! k) as [e |]; [| done].
  injection Hr as <-. split; [done |]. by exists e.
Qed.

Lemma storeStep_Ok_create kv st kv' st' :
  storeStep (Create kv) st (Ok kv') st' ->
  exists rev, kvs st' !! kvKey kv = Some (mkEntry (kvValue kv) rev).
Proof.
  inversion 1 as [Hr Hs | |]; subst.
  simpl in *. destruct (kvs st !! kvKey kv) as [e |]; [done |].
  simpl. eexists. apply lookup_insert_eq.
Qed.

(** The call just made only adds block records. *)
Ltac kept_by H := split; [eapply storeStep_kept; [| exact H]; exact I |].

Lemma claimBlockAffinity_safe subnet host config st :
  claimSafe (fun err st' => err = None -> ownerOf st' subnet = Some host)
            (claimBlockAffinity subnet host config) st.
Proof.
  unfold claimBlockAffinity. cbn [bind call claimSafe newBlock CIDR Allocations].
  intros st1 _ r1 st2 Hs1. kept_by Hs1.
  intros st3 _ r2 st4 Hs2. kept_by Hs2.
  destruct r2 as [kv | err]; cbn [bind claimSafe].
  - intros _. apply storeStep_Ok_create in Hs2 as [rev Hin].
    unfold ownerOf. simpl in Hin. by rewrite Hin.
  - destruct (isAlreadyExists err); cbn [bind claimSafe]; [| done].
    intros st5 _ r3 st6 Hs3. kept_by Hs3.
    destruct r3 as [obj | err3]; cbn [bind claimSafe]; [| done].
    apply storeStep_Ok_get in Hs3 as (-> & e & Hin & Hv).
    destruct (kvValue obj) as [b | |] eqn:Hobj; cbn [assertAllocationBlock bind claimSafe];
      try done.
    destruct (HostAffinity b) as [hb |] eqn:Hb.
    + destruct (String.eqb_spec hb host) as [-> | Hne]; cbn [bind claimSafe].
      * intros _. unfold ownerOf. rewrite Hin. destruct e as [v rev]. simpl in Hv.
        subst v. done.
      * intros st7 _ r4 st8 Hs4. kept_by Hs4.
        by destruct r4.
    + cbn [bind claimSafe].
      intros st7 _ r4 st8 Hs4. kept_by Hs4.
      by destruct r4.
Qed.

Lemma scanBlocks_safe host config next fuel :
  (forall st, claimSafe (claimedHolds host) next st) ->
  forall g st, claimSafe (claimedHolds host) (scanBlocks fuel g host config next) st.
Proof.
  intros Hnext. induction fuel as [| fuel IH]; intros g st; cbn [scanBlocks]; [done |].
  destruct (blocks g) as [[subnet |] g']; [| done].
  cbn [bind call claimSafe].
  intros st1 _ r st2 Hs. kept_by Hs.
  destruct r as [kv | err]; cbn [bind]; [done |].
  destruct (isDoesNotExist err); [| done].
  eapply claimSafe_bind; [| apply claimBlockAffinity_safe].
  intros [err' |] st' Hown; simpl; [done | by apply Hown].
Qed.

Lemma scanPools_safe host config fuel pools :
  forall st, claimSafe (claimedHolds host) (scanPools fuel pools host config) st.
Proof.
  induction pools as [| pool rest IH]; intros st; cbn [scanPools]; [done |].
  by apply scanBlocks_safe.
Qed.

Lemma resolvePools_safe version pool st :
  claimSafe (fun _ _ => True) (resolvePools version pool) st.
Proof.
  unfold resolvePools, isConfiguredPool. destruct pool as [pool |];
    cbn [bind call claimSafe]; intros st1 _ r st2 Hs; kept_by Hs.
  - by destruct (negb _); [| destruct (negb _)].
  - by destruct r.
Qed.

Lemma claimNewAffineBlock_safe fuel host version pool config st :
  claimSafe (claimedHolds host) (claimNewAffineBlock fuel host version pool config) st.
Proof.
  unfold claimNewAffineBlock.
  eapply claimSafe_bind; [| apply resolvePools_safe].
  intros [err | pools] st' _; [done |].
  destruct (Nat.eqb _ _); [done |]. apply scanPools_safe.
Qed.

Lemma runCall_safe c st : claimSafe reportHolds (runCall c) st.
Proof.
  destruct c as [subnet host config | fuel host version pool config]; unfold runCall.
  - eapply claimSafe_bind; [| apply claimBlockAffinity_safe].
    intros [err |] st' Hown; simpl; [done | by apply Hown].
  - eapply claimSafe_bind; [| apply claimNewAffineBlock_safe].
    intros [[[subnet |] [err |]] |] st' Hown; simpl; done.
Qed.

Lemma reportHolds_kept r st st' :
  blocksKept st st' -> reportHolds r st -> reportHolds r st'.
Proof.
  destruct r as [[cidr host] |]; simpl; [| done]. apply ownerOf_kept.
Qed.

Lemma sysSafe_init st calls : sysSafe (mkSystem st (map runCall calls)).
Proof.
  unfold sysSafe; simpl. apply Forall_forall. intros p Hin.
  apply list_elem_of_In, in_map_iff in Hin as (c & <- & _). apply runCall_safe.
Qed.

Lemma sysSafe_step sys sys' : sysSafe sys -> sysStep sys sys' -> sysSafe sys'.
Proof.
  unfold sysSafe. intros Hsafe Hstep.
  destruct Hstep as [st ts i op k r st' Hi Hs]; simpl in *.
  pose proof (Forall_lookup_1 _ _ _ _ Hsafe Hi) as Hp. simpl in Hp.
  destruct (Hp st (blocksKept_refl st) r st' Hs) as [Hk Hrest].
  apply Forall_insert; [| done].
  eapply Forall_impl; [exact Hsafe |]. intros p. simpl.
  apply claimSafe_mono; [apply reportHolds_kept | done].
Qed.

Lemma sysSafe_reachable sys sys' : sysSafe sys -> rtc sysStep sys sys' -> sysSafe sys'.
Proof. intros Hsafe Hr. induction Hr; eauto using sysSafe_step. Qed.

(** C2. Callers of [claimBlockAffinity] and [claimNewAffineBlock], any
    number of them on any hosts, interleave their store calls in any order
    from any store, each call served atomically or failing.  Whenever two
    of them have returned success for the same block, they did so for the
    same host, and that host is the owner the store records for the
    block. *)
Theorem no_double_ownership st0 calls sys i j cidr host1 host2 :
  rtc sysStep (mkSystem st0 (map runCall calls)) sys ->
  sysThreads sys !! i = Some (Ret (Some (cidr, host1))) ->
  sysThreads sys !! j = Some (Ret (Some (cidr, host2))) ->
  host1 = host2 /\ ownerOf (sysStore sys) cidr = Some host1.
Proof.
  intros Hr Hi Hj.
  pose proof (sysSafe_reachable _ _ (sysSafe_init st0 calls) Hr) as Hsafe.
  pose proof (Forall_lookup_1 _ _ _ _ Hsafe Hi) as H1.
  pose proof (Forall_lookup_1 _ _ _ _ Hsafe Hj) as H2.
  simpl in H1, H2. split; [congruence | done].
Qed.

(** The scheduler only takes steps of the system. *)
Lemma schedule_reachable order : forall sys, rtc sysStep sys (schedule order sys).
Proof.
  induction order as [| i order IH]; intros sys; [apply rtc_refl |].
  unfold schedule. cbn [fold_left]. fold (schedule order (stepThread i sys)).
  eapply rtc_trans; [| apply IH].
  unfold stepThread. destruct sys as [st ts]. simpl.
  destruct (ts !! i) as [[a | msg | op k] |] eqn:Hi; try apply rtc_refl.
  destruct (memBackend op st) as [r st'] eqn:Hm.
  apply rtc_once. econstructor; [done |].
  replace r with (fst (memBackend op st)) by (by rewrite Hm).
  replace st' with (snd (memBackend op st)) by (by rewrite Hm).
  constructor.
Qed.

(** ** What the two generators yield *)

Lemma nthBlock_inj pool j j' :
  0 < blockSize -> nthBlock pool j = nthBlock pool j' -> j = j'.
Proof. unfold nthBlock. intros Hb [= H]. nia. Qed.

(** A block whose call returns the sentinel is never yielded by the
    sequential generator, however often it is called. *)
Lemma blockGenerator_never_yields pool j n :
  canonicalPool pool -> 0 < blockSize ->
  nthCall pool j = None ->
  ~ In (Some (nthBlock pool j)) (outputs blocks n (blockGenerator pool)).
Proof.
  intros Hc Hb Hnone Hin. rewrite blockGenerator_outputs in Hin by done.
  apply in_map_iff in Hin as (j' & Hcall & _).
  unfold nthCall in Hcall, Hnone.
  destruct ((j' + 1) * blockSize <? poolSize pool) eqn:Hj'; [| done].
  assert (nthBlock pool j' = nthBlock pool j) as Heq by congruence.
  apply nthBlock_inj in Heq; [| done]. subst j'.
  by rewrite Hj' in Hnone.
Qed.

(** Whenever the block size divides the size of a canonical pool that
    holds at least one block, and the power of two fits the conversion,
    the last block of the pool is yielded by the randomized generator, for
    every permutation, and never by the sequential one. *)
Lemma generators_differ randPerm pool :
  canonicalPool pool -> 0 < blockSize ->
  poolSize pool mod blockSize = 0 -> blockSize <= poolSize pool ->
  maskBits (netMask pool) - maskOnes (netMask pool) <= 62 ->
  randPerm (poolSize pool / blockSize) ≡ₚ seqZ 0 (poolSize pool / blockSize) ->
  let last := nthBlock pool (poolSize pool / blockSize - 1) in
  (exists g, randomBlockGenerator randPerm pool = Some g
     /\ In (Some last)
           (outputs randomBlocks (Z.to_nat (poolSize pool / blockSize)) g))
  /\ (forall n, ~ In (Some last) (outputs blocks n (blockGenerator pool))).
Proof.
  intros Hc Hb Hdiv Hle Hw Hperm last.
  pose proof (poolSize_pos pool Hc) as Hp.
  assert (1 <= poolSize pool / blockSize) as Hq.
  { apply Z.div_le_lower_bound; lia. }
  split.
  - apply randomBlockGenerator_yields_index; try done; try lia.
    destruct Hc as (_ & Ho & _). unfold intExp2, poolSize.
    rewrite (proj2 (Z.ltb_ge _ _)) by lia.
    by rewrite (proj2 (Z.leb_le _ _)) by lia.
  - intros n. apply blockGenerator_never_yields; [done | done |].
    by apply last_block_in_pool.
Qed.

(** ** Further properties of the generators *)



Lemma blockGenerator_yielded_in_pool pool n c d :
  canonicalPool pool -> 0 < blockSize ->
  In (Some c) (outputs blocks n (blockGenerator pool)) ->
  0 <= d <= blockSize ->
  Contains pool (incrementIP (netIP c) d) = true.
Proof.
  intros Hc Hb Hin Hd. rewrite blockGenerator_outputs in Hin by done.
  apply in_map_iff in Hin as (j & Hcall & Hj).
  apply list_elem_of_In, elem_of_seqZ in Hj. unfold nthCall in Hcall.
  destruct (Z.ltb_spec ((j + 1) * blockSize) (poolSize pool)) as [Hlt | Hge]; [| done].
  injection Hcall as <-. unfold nthBlock, incrementIP; simpl.
  apply Contains_range; [done | nia].
Qed.

(** X2. Every block the sequential generator returns lies inside the pool:
    each of the [blockSize] addresses from its base is contained in the
    pool, and so is the base of the block after it. *)
Theorem blockGenerator_blocks_in_pool pool n c d :
  canonicalPool pool -> 0 < blockSize ->
  In (Some c) (outputs blocks n (blockGenerator pool)) ->
  0 <= d <= blockSize ->
  Contains pool (incrementIP (netIP c) d) = true.
Proof. apply blockGenerator_yielded_in_pool. Qed.





(** ** Further properties of the claim path *)

Lemma callsAll_bind {A B : Type} (P : clientCall -> Prop) (p : Prog A) (f : A -> Prog B) :
  callsAll P p -> (forall a, callsAll P (f a)) -> callsAll P (bind p f).
Proof.
  intros Hp Hf. induction p as [a | msg | op k IH]; simpl in *; [done | done |].
  destruct Hp as [Hop Hk]. split; [done |]. intros r. by apply IH.
Qed.

Lemma callsAll_impl {A : Type} (P P' : clientCall -> Prop) (p : Prog A) :
  (forall op, P op -> P' op) -> callsAll P p -> callsAll P' p.
Proof.
  intros HP. induction p as [a | msg | op k IH]; simpl; [done | done |].
  intros [Hop Hk]. split; [by apply HP |]. intros r. by apply IH.
Qed.

Lemma claimBlockAffinity_calls subnet host config :
  callsAll (claimCallOf host (fun c => c = subnet)) (claimBlockAffinity subnet host config).
Proof.
  unfold claimBlockAffinity. cbn [bind call callsAll newBlock CIDR Allocations].
  split; [done |]. intros r1. split; [done |]. intros [kv | err]; cbn [bind callsAll]; [done |].
  destruct (isAlreadyExists err); cbn [bind callsAll]; [| done].
  split; [done |]. intros [obj | err3]; cbn [bind callsAll]; [| done].
  destruct (kvValue obj) as [b | |]; cbn [assertAllocationBlock bind callsAll]; try done.
  destruct (match HostAffinity b with Some h => String.eqb h host | None => false end);
    cbn [bind callsAll]; [done |].
  split; [done |]. by intros [err4 |].
Qed.

Lemma scanBlocks_calls host config next fuel :
  callsAll (claimCallOf host (fun _ => True)) next ->
  forall g, callsAll (claimCallOf host (fun _ => True)) (scanBlocks fuel g host config next).
Proof.
  intros Hnext. induction fuel as [| fuel IH]; intros g; cbn [scanBlocks]; [done |].
  destruct (blocks g) as [[subnet |] g']; [| done].
  cbn [bind call callsAll]. split; [done |]. intros [kv | err]; cbn [bind]; [apply IH |].
  destruct (isDoesNotExist err); [| done].
  apply callsAll_bind; [| done].
  eapply callsAll_impl; [| apply claimBlockAffinity_calls].
  intros [k | kv | kv | kv |]; simpl; try done. by destruct (kvKey kv).
Qed.

Lemma claimNewAffineBlock_calls fuel host version pool config :
  callsAll (claimCallOf host (fun _ => True))
           (claimNewAffineBlock fuel host version pool config).
Proof.
  unfold claimNewAffineBlock. apply callsAll_bind.
  - unfold resolvePools, isConfiguredPool. destruct pool as [pool |];
      cbn [bind call callsAll]; (split; [done |]); intros r.
    + by destruct (negb _); [| destruct (negb _)].
    + by destruct r.
  - intros [err | pools]; [done |]. destruct (Nat.eqb _ _); [done |].
    induction pools as [| p rest IH]; cbn [scanPools]; [done |].
    by apply scanBlocks_calls.
Qed.

Lemma claimEffect_refl host blockOk st : claimEffect host blockOk st st.
Proof.
  split; [done |]. intros k Hnone [e He]. congruence.
Qed.

Lemma claimEffect_trans host blockOk st1 st2 st3 :
  claimEffect host blockOk st1 st2 -> claimEffect host blockOk st2 st3 ->
  claimEffect host blockOk st1 st3.
Proof.
  intros [Hk12 Hn12] [Hk23 Hn23]. split.
  - intros k e Hk He. by apply Hk23, Hk12.
  - intros k Hnone Hsome. destruct (kvs st2 !! k) as [e2 |] eqn:H2.
    + apply Hn12; [done | by exists e2].
    + by apply Hn23.
Qed.

Lemma memBackend_claimEffect host blockOk op st :
  claimCallOf host blockOk op -> claimEffect host blockOk st (snd (memBackend op st)).
Proof.
  intros Hop. destruct op as [k | kv | kv | kv |]; simpl in *;
    try done; try apply claimEffect_refl.
  - destruct (kvs st !! k); apply claimEffect_refl.
  - destruct (kvs st !! kvKey kv) eqn:Hkv; [apply claimEffect_refl |]. simpl. split.
    + intros k e Hk He. cbn [kvs]. rewrite lookup_insert_ne; [done |]. congruence.
    + intros k Hnone Hsome. simpl in Hsome.
      destruct (decide (kvKey kv = k)) as [<- | Hne].
      * destruct (kvKey kv) as [c | h' c]; [left; by exists c | right; subst; by exists c].
      * rewrite lookup_insert_ne in Hsome by done. rewrite Hnone in Hsome.
        by destruct Hsome.
  - destruct (kvKey kv) as [| h' c] eqn:Hkey; [done |]. subst h'.
    destruct (kvs st !! BlockAffinityKey host c); [| apply claimEffect_refl].
    destruct (revisionMatches kv _); [| apply claimEffect_refl]. simpl. split.
    + intros k e' Hk He. cbn [kvs]. by rewrite lookup_delete_ne.
    + intros k Hnone [e' He]. simpl in He.
      destruct (decide (BlockAffinityKey host c = k)) as [<- | Hne].
      * by rewrite lookup_delete_eq in He.
      * rewrite lookup_delete_ne in He by done. congruence.
Qed.

Lemma interp_mem_claimEffect {A : Type} host blockOk (p : Prog A) :
  callsAll (claimCallOf host blockOk) p ->
  forall st o st' tr,
  interp memBackend p st = (o, st', tr) -> claimEffect host blockOk st st'.
Proof.
  induction p as [a | msg | op k IH]; intros Hp st o st' tr Hrun; simpl in *.
  - injection Hrun as _ <- _. apply claimEffect_refl.
  - injection Hrun as _ <- _. apply claimEffect_refl.
  - destruct Hp as [Hop Hk].
    pose proof (memBackend_claimEffect host blockOk op st Hop) as Hstep.
    destruct (memBackend op st) as [r s1]. simpl in Hstep.
    destruct (interp memBackend (k r) s1) as [[o2 s2] tr2] eqn:Hrest.
    injection Hrun as _ <- _.
    eapply claimEffect_trans; [exact Hstep |]. by eapply IH.
Qed.

(** X6. On the in-memory store, claiming a block that has no record returns
    nil after the two creations; afterwards the store holds the block
    record with the CIDR, the host as affinity, the strict-affinity flag of
    the configuration and no lease, and an affinity record of (host,
    subnet); every other record is as before. *)
Theorem claimBlockAffinity_creates_records st subnet host config :
  kvs st !! BlockKey subnet = None ->
  exists st' rev,
    interp memBackend (claimBlockAffinity subnet host config) st
    = (Returned None, st',
       [Create (affinityPair host subnet); Create (claimedBlockPair host subnet config)])
    /\ kvs st' !! BlockKey subnet
       = Some (mkEntry (VAllocationBlock
                          (mkBlock subnet (Some host) (cfgStrictAffinity config) []))
                       rev)
    /\ is_Some (kvs st' !! BlockAffinityKey host subnet)
    /\ (forall k, k <> BlockKey subnet -> k <> BlockAffinityKey host subnet ->
                  kvs st' !! k = kvs st !! k).
Proof.
  intros Hfree.
  destruct (memBackend (Create (affinityPair host subnet)) st) as [r0 sa] eqn:Hca.
  pose proof (mem_create_occupied st (affinityPair host subnet)) as Hocc.
  pose proof (mem_create_other st (affinityPair host subnet)) as Hoth.
  rewrite Hca in Hocc, Hoth. simpl in Hocc, Hoth.
  pose proof (mem_create_absent sa (claimedBlockPair host subnet config)) as Hcb.
  simpl in Hcb. specialize (Hcb ltac:(by rewrite Hoth)).
  eexists _, _. split; [by eapply claimBlockAffinity_fresh |]. simpl.
  split; [apply lookup_insert_eq |]. split.
  - by rewrite lookup_insert_ne.
  - intros k Hk1 Hk2. rewrite lookup_insert_ne by done. by apply Hoth.
Qed.

(** X7. On any backend, an error of the block creation other than
    already-exists is returned as it is after the two creations, and an
    error of the read that follows already-exists is returned after those
    three calls; in both cases no deletion is made, so an affinity record
    created by the call stays. *)
Theorem claimBlockAffinity_propagates_errors {T : Type} (h : handler T) subnet host config
        s r0 s1 e s2 :
  h (Create (affinityPair host subnet)) s = (r0, s1) ->
  (h (Create (claimedBlockPair host subnet config)) s1 = (Err e, s2) ->
   isAlreadyExists e = false ->
   interp h (claimBlockAffinity subnet host config) s
   = (Returned (Some e), s2,
      [Create (affinityPair host subnet); Create (claimedBlockPair host subnet config)]))
  /\ (forall s3,
      h (Create (claimedBlockPair host subnet config)) s1
        = (Err ErrorResourceAlreadyExists, s2) ->
      h (Get (BlockKey subnet)) s2 = (Err e, s3) ->
      interp h (claimBlockAffinity subnet host config) s
      = (Returned (Some e), s3,
         [Create (affinityPair host subnet); Create (claimedBlockPair host subnet config);
          Get (BlockKey subnet)])).
Proof.
  intros H1. unfold claimBlockAffinity, affinityPair, claimedBlockPair in *. split.
  - intros H2 He. cbn [bind call interp newBlock CIDR Allocations].
    rewrite H1. cbn [bind interp]. rewrite H2. cbn [bind interp]. by rewrite He.
  - intros s3 H2 H3. cbn [bind call interp newBlock CIDR Allocations].
    rewrite H1. cbn [bind interp]. rewrite H2. cbn [bind interp isAlreadyExists].
    by rewrite H3.
Qed.

(** X8. On the in-memory store, whatever its outcome, [claimBlockAffinity]
    leaves every record that is not an affinity record of the calling host
    as it was, block records included; the only records it can add are the
    block record of the subnet and affinity records of the host. *)
Theorem claimBlockAffinity_keeps_other_records st subnet host config o st' tr :
  interp memBackend (claimBlockAffinity subnet host config) st = (o, st', tr) ->
  (forall k e, (forall c, k <> BlockAffinityKey host c) ->
               kvs st !! k = Some e -> kvs st' !! k = Some e)
  /\ (forall k, kvs st !! k = None -> is_Some (kvs st' !! k) ->
                k = BlockKey subnet \/ exists c, k = BlockAffinityKey host c).
Proof.
  intros Hrun.
  destruct (interp_mem_claimEffect host (fun c => c = subnet) _
              (claimBlockAffinity_calls subnet host config) _ _ _ _ Hrun) as [Hk Hn].
  split; [done |]. intros k Hnone Hsome.
  destruct (Hn k Hnone Hsome) as [(c & -> & ->) | Haff]; [by left | by right].
Qed.

(** X9. On the in-memory store, whatever its outcome, [claimNewAffineBlock]
    leaves every record that is not an affinity record of the calling host
    as it was: it never rewrites or deletes a block record, and the only
    records it can add are block records and affinity records of the
    host. *)
Theorem claimNewAffineBlock_keeps_records st fuel host version pool config o st' tr :
  interp memBackend (claimNewAffineBlock fuel host version pool config) st = (o, st', tr) ->
  (forall k e, (forall c, k <> BlockAffinityKey host c) ->
               kvs st !! k = Some e -> kvs st' !! k = Some e)
  /\ (forall k, kvs st !! k = None -> is_Some (kvs st' !! k) ->
                (exists c, k = BlockKey c) \/ exists c, k = BlockAffinityKey host c).
Proof.
  intros Hrun.
  destruct (interp_mem_claimEffect host (fun _ => True) _
              (claimNewAffineBlock_calls fuel host version pool config) _ _ _ _ Hrun)
    as [Hk Hn].
  split; [done |]. intros k Hnone Hsome.
  destruct (Hn k Hnone Hsome) as [(c & -> & _) | Haff]; [left; by exists c | by right].
Qed.






Lemma scanBlocks_read_error {T : Type} (h : handler T) host config next pre c e :
  forall fuel g s s1 tr s2,
  (length pre < fuel)%nat ->
  outputs blocks (S (length pre)) g = map Some pre ++ [Some c] ->
  allFound h pre s s1 tr ->
  h (Get (BlockKey c)) s1 = (Err e, s2) ->
  isDoesNotExist e = false ->
  interp h (scanBlocks fuel g host config next) s
  = (Returned (Some (None, Some e)), s2, tr ++ [Get (BlockKey c)]).
Proof.
  induction pre as [| c0 pre IH]; intros fuel g s s1 tr s2 Hfuel Hout Hfound Hget He;
    (destruct fuel as [| fuel]; [simpl in Hfuel; lia |]);
    cbn [outputs length] in Hout; cbn [scanBlocks];
    destruct (blocks g) as [o g'] eqn:Hb; simpl in Hout.
  - inversion Hfound; subst. injection Hout as ->.
    cbn [bind call]. erewrite interp_call_step by done. cbn [bind]. by rewrite He.
  - inversion Hfound as [| c' l' s0 kv s1' s2' tr' Hget0 Hrest]; subst.
    injection Hout as -> Hout.
    cbn [bind call]. erewrite interp_call_step by done. cbn [bind].
    erewrite IH; [done | simpl in Hfuel; lia | done | done | done | done].
Qed.

Lemma scanPools_read_error {T : Type} (h : handler T) fuel host config pools candss e :
  Forall2 (yieldsWithin fuel) pools candss ->
  forall pre c post s s1 tr s2,
  concat candss = pre ++ c :: post ->
  allFound h pre s s1 tr ->
  h (Get (BlockKey c)) s1 = (Err e, s2) ->
  isDoesNotExist e = false ->
  interp h (scanPools fuel pools host config) s
  = (Returned (Some (None, Some e)), s2, tr ++ [Get (BlockKey c)]).
Proof.
  induction 1 as [| pool l pools candss Hy _ IH];
    intros pre c post s s1 tr s2 Hcat Hfound Hget He.
  - by destruct pre.
  - cbn [concat] in Hcat. cbn [scanPools].
    apply app_eq_inv in Hcat as [(k & -> & Hk) | (k & -> & Hk)].
    + destruct k as [| c' k].
      * rewrite app_nil_r in Hy. destruct Hy as [Hfuel Hout]. simpl in Hk.
        erewrite scanBlocks_all_found by done.
        erewrite (IH [] c post s1 s1 [] s2); [done | done | constructor | done | done].
      * injection Hk as <- _.
        apply yieldsWithin_prefix in Hy as [Hfuel Hout].
        by eapply scanBlocks_read_error.
    + destruct Hy as [Hfuel Hout].
      apply allFound_app in Hfound as (sm & tr1 & tr2 & H1 & H2 & ->).
      erewrite scanBlocks_all_found by done.
      erewrite (IH k c post sm s1 tr2 s2) by done.
      simpl. by rewrite app_assoc.
Qed.

Lemma claimNewAffineBlock_resolved {T : Type} (h : handler T) fuel host version pool config
      s pools s1 tr1 :
  interp h (resolvePools version pool) s = (Returned (inr pools), s1, tr1) ->
  pools <> [] ->
  interp h (claimNewAffineBlock fuel host version pool config) s
  = prepend tr1 (interp h (scanPools fuel pools host config) s1).
Proof.
  intros Hres Hne. unfold claimNewAffineBlock. rewrite interp_bind, Hres.
  destruct pools as [| p ps]; [done |]. cbn [length Nat.eqb].
  by destruct (interp h (scanPools fuel (p :: ps) host config) s1) as [[o s2] tr].
Qed.

(** X11. On any backend, when the read of a candidate fails with an error
    other than does-not-exist, after the candidates before it were found,
    [claimNewAffineBlock] returns that error and no block, without claiming
    anything and without reading further candidates. *)
Theorem claimNewAffineBlock_read_error {T : Type} (h : handler T) fuel host version pool
        config s pools s1 tr1 candss pre c post s2 tr e s3 :
  interp h (resolvePools version pool) s = (Returned (inr pools), s1, tr1) ->
  pools <> [] ->
  Forall2 (yieldsWithin fuel) pools candss ->
  concat candss = pre ++ c :: post ->
  allFound h pre s1 s2 tr ->
  h (Get (BlockKey c)) s2 = (Err e, s3) ->
  isDoesNotExist e = false ->
  interp h (claimNewAffineBlock fuel host version pool config) s
  = (Returned (Some (None, Some e)), s3, tr1 ++ tr ++ [Get (BlockKey c)]).
Proof.
  intros Hres Hne Hy Hcat Hfound Hget He.
  rewrite (claimNewAffineBlock_resolved h fuel host version pool config s pools s1 tr1)
    by done.
  by erewrite scanPools_read_error.
Qed.

Lemma existsb_configured_false items pool :
  Forall (fun p => poolDisabled p = true \/ poolCIDR p <> pool) items ->
  existsb (fun p => negb (poolDisabled p) && bool_decide (poolCIDR p = pool)) items = false.
Proof.
  induction 1 as [| p rest Hp _ IH]; [done |]. simpl. rewrite IH, orb_false_r.
  destruct Hp as [-> | Hne]; [done |]. rewrite bool_decide_eq_false_2 by done.
  apply andb_false_r.
Qed.

Lemma existsb_configured_true items pool :
  Exists (fun p => poolDisabled p = false /\ poolCIDR p = pool) items ->
  existsb (fun p => negb (poolDisabled p) && bool_decide (poolCIDR p = pool)) items = true.
Proof.
  induction 1 as [p rest [Hd Hc] | p rest _ IH]; simpl.
  - rewrite Hd, bool_decide_eq_true_2 by done. done.
  - rewrite IH. apply orb_true_r.
Qed.

Lemma resolvePools_given {T : Type} (h : handler T) version pool s items s1 :
  h PoolsList s = (Ok items, s1) ->
  interp h (resolvePools version (Some pool)) s
  = (Returned
       (if negb (existsb (fun p => negb (poolDisabled p) && bool_decide (poolCIDR p = pool))
                         items)
        then inl (errorsNew "The given pool (%s) does not exist" [ArgNet pool])
        else if negb (Number version =? Version pool)
        then inl (errorsNew "The given pool (%s) does not match IP version %d"
                            [ArgNet pool; ArgInt (Number version)])
        else inr [pool]),
     s1, [PoolsList]).
Proof.
  intros Hl. unfold resolvePools, isConfiguredPool. cbn [bind call interp]. rewrite Hl.
  cbn [bind interp]. destruct (negb _); [done |]. by destruct (negb _).
Qed.

(** X12. On any backend, [claimNewAffineBlock] with a given pool reads
    nothing but the pool listing when it rejects the pool: a pool that no
    enabled entry of the listing equals (a disabled pool included) is
    refused as not existing, and a configured pool of another IP version
    than the one requested is refused as not matching. *)
Theorem claimNewAffineBlock_given_pool_rejected {T : Type} (h : handler T) fuel host version
        pool config s items s1 :
  h PoolsList s = (Ok items, s1) ->
  (Forall (fun p => poolDisabled p = true \/ poolCIDR p <> pool) items ->
   interp h (claimNewAffineBlock fuel host version (Some pool) config) s
   = (Returned (Some (None, Some (errorsNew "The given pool (%s) does not exist"
                                            [ArgNet pool]))),
      s1, [PoolsList]))
  /\ (Exists (fun p => poolDisabled p = false /\ poolCIDR p = pool) items ->
      Number version <> Version pool ->
      interp h (claimNewAffineBlock fuel host version (Some pool) config) s
      = (Returned (Some (None, Some (errorsNew
                                       "The given pool (%s) does not match IP version %d"
                                       [ArgNet pool; ArgInt (Number version)]))),
         s1, [PoolsList])).
Proof.
  intros Hl. unfold claimNewAffineBlock. rewrite interp_bind.
  rewrite (resolvePools_given h version pool s items s1 Hl). split.
  - intros Hnone. by rewrite existsb_configured_false.
  - intros Hsome Hver. rewrite existsb_configured_true by done.
    by rewrite (proj2 (Z.eqb_neq _ _)).
Qed.

Lemma filter_eligible_none version items :
  Forall (fun p => poolDisabled p = true \/ Number version <> Version (poolCIDR p)) items ->
  List.filter (fun p => negb (poolDisabled p) && (Number version =? Version (poolCIDR p)))
              items = [].
Proof.
  induction 1 as [| p rest Hp _ IH]; [done |]. simpl. rewrite IH.
  destruct Hp as [-> | Hne]; [done |].
  rewrite (proj2 (Z.eqb_neq _ _)) by done. by rewrite andb_false_r.
Qed.

(** X13. On any backend, [claimNewAffineBlock] without a given pool returns
    the error of a failed pool listing as it is, and the "No configured
    Calico pools" error when every listed pool is disabled or of another IP
    version; in both cases the listing is the only call. *)
Theorem claimNewAffineBlock_no_pools {T : Type} (h : handler T) fuel host version config
        s s1 :
  (forall e,
      h PoolsList s = (Err e, s1) ->
      interp h (claimNewAffineBlock fuel host version None config) s
      = (Returned (Some (None, Some e)), s1, [PoolsList]))
  /\ (forall items,
      h PoolsList s = (Ok items, s1) ->
      Forall (fun p => poolDisabled p = true \/ Number version <> Version (poolCIDR p))
             items ->
      interp h (claimNewAffineBlock fuel host version None config) s
      = (Returned (Some (None, Some (errorsNew "No configured Calico pools" []))),
         s1, [PoolsList])).
Proof.
  unfold claimNewAffineBlock, resolvePools. split.
  - intros e Hl. cbn [bind call interp]. by rewrite Hl.
  - intros items Hl Hnone. cbn [bind call interp]. rewrite Hl. cbn [bind interp].
    by rewrite filter_eligible_none.
Qed.

(** X14. A configured pool that holds no more addresses than one block
    yields no candidate at all: on any backend, [claimNewAffineBlock] on
    such a pool returns "No Free Blocks" without reading a single block
    record, whatever the store holds. *)
Theorem claimNewAffineBlock_single_block_pool {T : Type} (h : handler T) fuel host version
        pool config s items s1 :
  h PoolsList s = (Ok items, s1) ->
  Exists (fun p => poolDisabled p = false /\ poolCIDR p = pool) items ->
  Number version = Version pool ->
  canonicalPool pool -> 0 < blockSize -> poolSize pool <= blockSize ->
  (0 < fuel)%nat ->
  interp h (claimNewAffineBlock fuel host version (Some pool) config) s
  = (Returned (Some (None, Some (noFreeBlocksError "No Free Blocks"))), s1, [PoolsList]).
Proof.
  intros Hl Hcfg Hver Hc Hb Hsmall Hfuel.
  pose proof (poolSize_pos pool Hc) as Hp.
  assert (interp h (resolvePools version (Some pool)) s
          = (Returned (inr [pool]), s1, [PoolsList])) as Hres.
  { rewrite (resolvePools_given h version pool s items s1 Hl).
    rewrite existsb_configured_true by done. by rewrite Hver, Z.eqb_refl. }
  rewrite (claimNewAffineBlock_resolved h fuel host version (Some pool) config s
             [pool] s1 [PoolsList] Hres) by done.
  assert (yieldsWithin fuel pool []) as Hy.
  { split; [simpl; lia |]. simpl length.
    rewrite blockGenerator_outputs by done. simpl.
    rewrite nthCall_None; [done | done | done |].
    unfold yieldCount. rewrite Z.div_small by lia. done. }
  assert (Forall2 (yieldsWithin fuel) [pool] [[]]) as Hall
    by (constructor; [exact Hy | constructor]).
  by rewrite (scanPools_all_found h fuel host config [pool] [[]] Hall s1 s1 []
                (found_nil h s1)).
Qed.

(** ** Further properties of the release path *)

Lemma releaseLoop_read_error {T : Type} (h : handler T) n host cidr s e s1 :
  h (Get (BlockKey cidr)) s = (Err e, s1) ->
  interp h (releaseLoop (S n) host cidr) s = (Returned (Some e), s1, [Get (BlockKey cidr)]).
Proof. intros Hget. cbn [releaseLoop bind call interp]. by rewrite Hget. Qed.

(** X15. Releasing a block whose read fails returns the read error after
    that single call; in particular, on the in-memory store, releasing a
    block that has no record fails with does-not-exist and leaves the store,
    an affinity record of the host included, as it was. *)
Theorem releaseBlockAffinity_missing_block host cidr :
  (0 < ipamEtcdRetries)%nat ->
  (forall (T : Type) (h : handler T) s e s1,
      h (Get (BlockKey cidr)) s = (Err e, s1) ->
      interp h (releaseBlockAffinity host cidr) s
      = (Returned (Some e), s1, [Get (BlockKey cidr)]))
  /\ (forall st,
      kvs st !! BlockKey cidr = None ->
      interp memBackend (releaseBlockAffinity host cidr) st
      = (Returned (Some ErrorResourceDoesNotExist), st, [Get (BlockKey cidr)])).
Proof.
  intros Hn. unfold releaseBlockAffinity.
  destruct ipamEtcdRetries as [| n]; [lia |]. split.
  - intros T h s e s1 Hget. by apply releaseLoop_read_error.
  - intros st Hnone. apply releaseLoop_read_error. by apply mem_get_absent.
Qed.

(** X16. On any backend, once the block is read and no other host holds
    it, the release returns nil whatever the deletion of the affinity
    record answers, and a does-not-exist answer to the deletion of an empty
    block is passed over like a success. *)
Theorem releaseBlockAffinity_tolerates_deletes {T : Type} (h : handler T) host cidr
        s obj s1 b :
  (0 < ipamEtcdRetries)%nat ->
  h (Get (BlockKey cidr)) s = (Ok obj, s1) ->
  kvValue obj = VAllocationBlock b ->
  foreignTo host b = false ->
  (forall e s2 e3 s3,
      empty b = true ->
      h (Delete (blockKeyOnly (CIDR b))) s1 = (e, s2) ->
      e = None \/ e = Some ErrorResourceDoesNotExist ->
      h (Delete (affinityKeyOnly host (CIDR b))) s2 = (e3, s3) ->
      interp h (releaseBlockAffinity host cidr) s
      = (Returned None, s3,
         [Get (BlockKey cidr); Delete (blockKeyOnly (CIDR b));
          Delete (affinityKeyOnly host (CIDR b))]))
  /\ (forall kv s2 e3 s3,
      empty b = false ->
      h (Update (clearedPair obj b)) s1 = (Ok kv, s2) ->
      h (Delete (affinityKeyOnly host (CIDR b))) s2 = (e3, s3) ->
      interp h (releaseBlockAffinity host cidr) s
      = (Returned None, s3,
         [Get (BlockKey cidr); Update (clearedPair obj b);
          Delete (affinityKeyOnly host (CIDR b))])).
Proof.
  intros Hn Hget Hv Hf. unfold releaseBlockAffinity.
  destruct ipamEtcdRetries as [| n]; [lia |].
  rewrite (releaseLoop_iteration h n host cidr s obj s1 b Hget Hv), Hf. split.
  - intros e s2 e3 s3 He Hd1 Hok Hd2. rewrite He, Hd1.
    destruct Hok as [-> | ->]; cbn match; by rewrite Hd2.
  - intros kv s2 e3 s3 He Hu Hd. by rewrite He, Hu, Hd.
Qed.

(** X17. On any backend, an error of the deletion of an empty block other
    than does-not-exist, and an error of the update of a non-empty block
    other than an update conflict, are returned as they are; the affinity
    record is then not deleted and the loop is not run again. *)
Theorem releaseBlockAffinity_propagates_errors {T : Type} (h : handler T) host cidr
        s obj s1 b e s2 :
  (0 < ipamEtcdRetries)%nat ->
  h (Get (BlockKey cidr)) s = (Ok obj, s1) ->
  kvValue obj = VAllocationBlock b ->
  foreignTo host b = false ->
  (empty b = true ->
   h (Delete (blockKeyOnly (CIDR b))) s1 = (Some e, s2) ->
   isDoesNotExist e = false ->
   interp h (releaseBlockAffinity host cidr) s
   = (Returned (Some e), s2, [Get (BlockKey cidr); Delete (blockKeyOnly (CIDR b))]))
  /\ (empty b = false ->
      h (Update (clearedPair obj b)) s1 = (Err e, s2) ->
      isUpdateConflict e = false ->
      interp h (releaseBlockAffinity host cidr) s
      = (Returned (Some e), s2, [Get (BlockKey cidr); Update (clearedPair obj b)])).
Proof.
  intros Hn Hget Hv Hf. unfold releaseBlockAffinity.
  destruct ipamEtcdRetries as [| n]; [lia |].
  rewrite (releaseLoop_iteration h n host cidr s obj s1 b Hget Hv), Hf. split.
  - intros He Hd Hne. by rewrite He, Hd, Hne.
  - intros He Hu Hne. by rewrite He, Hu, Hne.
Qed.

Lemma releaseLoop_call_bound {T : Type} (h : handler T) host cidr n :
  forall s, (length (snd (interp h (releaseLoop n host cidr) s)) <= 2 * n + 1)%nat.
Proof.
  induction n as [| n IH]; intros s; [simpl; lia |].
  destruct (h (Get (BlockKey cidr)) s) as [[obj | e] s1] eqn:Hget.
  - destruct (kvValue obj) as [b | |] eqn:Hv.
    + rewrite (releaseLoop_iteration h n host cidr s obj s1 b Hget Hv).
      destruct (foreignTo host b); [simpl; lia |]. destruct (empty b).
      * destruct (h (Delete (blockKeyOnly (CIDR b))) s1) as [e s2].
        destruct (match e with Some err => isDoesNotExist err | None => true end);
          [| simpl; lia].
        destruct (h (Delete (affinityKeyOnly host (CIDR b))) s2) as [e3 s3]. simpl; lia.
      * destruct (h (Update (clearedPair obj b)) s1) as [[kv | err] s2].
        -- destruct (h (Delete (affinityKeyOnly host (CIDR b))) s2) as [e3 s3]. simpl; lia.
        -- destruct (isUpdateConflict err); [| simpl; lia].
           specialize (IH s2). unfold prepend.
           destruct (interp h (releaseLoop n host cidr) s2) as [[o s3] tr].
           simpl in *. lia.
    + cbn [releaseLoop bind call interp]. rewrite Hget. cbn [bind interp]. rewrite Hv.
      simpl. lia.
    + cbn [releaseLoop bind call interp]. rewrite Hget. cbn [bind interp]. rewrite Hv.
      simpl. lia.
  - rewrite (releaseLoop_read_error h n host cidr s e s1 Hget). simpl. lia.
Qed.

(** X18. On any backend and from any state, [releaseBlockAffinity] makes at
    most [2 * ipamEtcdRetries + 1] calls: two for each iteration that ends
    in an update conflict, three for the last one. *)
Theorem releaseBlockAffinity_call_bound {T : Type} (h : handler T) host cidr s :
  (length (snd (interp h (releaseBlockAffinity host cidr) s)) <= 2 * ipamEtcdRetries + 1)%nat.
Proof. apply releaseLoop_call_bound. Qed.

(** X19. On the in-memory store, where the block record of the CIDR, if
    any, is stored under its own CIDR, [releaseBlockAffinity] ends within
    one iteration (at most three calls), whatever its outcome, and leaves
    every record other than the block record of the CIDR and the affinity
    record of (host, CIDR) as it was. *)
Theorem releaseBlockAffinity_keeps_other_records st host cidr o st' tr :
  (forall b rev, kvs st !! BlockKey cidr = Some (mkEntry (VAllocationBlock b) rev) ->
                 CIDR b = cidr) ->
  interp memBackend (releaseBlockAffinity host cidr) st = (o, st', tr) ->
  (forall k, k <> BlockKey cidr -> k <> BlockAffinityKey host cidr ->
             kvs st' !! k = kvs st !! k)
  /\ (length tr <= 3)%nat.
Proof.
  intros Hkeyed. unfold releaseBlockAffinity.
  destruct ipamEtcdRetries as [| n];
    [intros [= _ <- <-]; split; [done | simpl; lia] |].
  destruct (kvs st !! BlockKey cidr) as [[v rev] |] eqn:Hblk.
  - destruct v as [b | |].
    + destruct (foreignTo host b) eqn:Hf.
      * erewrite releaseLoop_iteration; [| by apply mem_get_present | done].
        rewrite Hf. intros [= _ <- <-]. split; [done | simpl; lia].
      * destruct (releaseLoop_unopposed n st cidr b rev host Hblk (Hkeyed b rev eq_refl) Hf)
          as (st2 & Hrun & Hkvs).
        rewrite Hrun. intros [= _ <- <-]. split.
        -- intros k Hk1 Hk2. rewrite Hkvs, lookup_delete_ne by done.
           destruct (empty b); [by rewrite lookup_delete_ne | by rewrite lookup_insert_ne].
        -- destruct (empty b); simpl; lia.
    + cbn [releaseLoop bind call interp]. erewrite mem_get_present by done.
      simpl. intros [= _ <- <-]. split; [done | simpl; lia].
    + cbn [releaseLoop bind call interp]. erewrite mem_get_present by done.
      simpl. intros [= _ <- <-]. split; [done | simpl; lia].
  - rewrite (releaseLoop_read_error memBackend n host cidr st _ st (mem_get_absent _ _ Hblk)).
    intros [= _ <- <-]. split; [done | simpl; lia].
Qed.

Lemma claimBlockAffinity_fresh_mem st subnet host config :
  kvs st !! BlockKey subnet = None ->
  kvs st !! BlockAffinityKey host subnet = None ->
  interp memBackend (claimBlockAffinity subnet host config) st
  = (Returned None,
     mkStore (<[BlockKey subnet :=
                  mkEntry (VAllocationBlock
                             (mkBlock subnet (Some host) (cfgStrictAffinity config) []))
                          (clock st + 1 + 1)]>
                (<[BlockAffinityKey host subnet := mkEntry VBlockAffinity (clock st + 1)]>
                   (kvs st)))
             (clock st + 1 + 1) (pools st),
     [Create (affinityPair host subnet); Create (claimedBlockPair host subnet config)]).
Proof.
  intros Hblk Haff. eapply claimBlockAffinity_fresh.
  - rewrite mem_create_absent by done. reflexivity.
  - rewrite mem_create_absent; [reflexivity |]. simpl. by rewrite lookup_insert_ne.
Qed.

(** X20. On the in-memory store, claiming a block that has neither a block
    record nor an affinity record for the host, and then releasing it for
    that host, succeeds twice and leaves the records of the store exactly
    as they were before the claim. *)
Theorem claim_then_release st subnet host config :
  (0 < ipamEtcdRetries)%nat ->
  kvs st !! BlockKey subnet = None ->
  kvs st !! BlockAffinityKey host subnet = None ->
  exists st1 tr1 st2 tr2,
    interp memBackend (claimBlockAffinity subnet host config) st = (Returned None, st1, tr1)
    /\ interp memBackend (releaseBlockAffinity host subnet) st1 = (Returned None, st2, tr2)
    /\ kvs st2 = kvs st.
Proof.
  intros Hn Hblk Haff.
  eexists _, _. unfold releaseBlockAffinity.
  destruct ipamEtcdRetries as [| n]; [lia |].
  edestruct (releaseLoop_unopposed n) as (st2 & Hrun & Hkvs);
    [| | | exists st2; eexists; split;
           [by apply claimBlockAffinity_fresh_mem | split; [exact Hrun |]]].
  - simpl. apply lookup_insert_eq.
  - done.
  - unfold foreignTo. simpl. by rewrite String.eqb_refl.
  - rewrite Hkvs. simpl. apply map_eq. intros k.
    destruct (decide (k = BlockAffinityKey host subnet)) as [-> | Hk1].
    { by rewrite lookup_delete_eq. }
    rewrite lookup_delete_ne by done.
    destruct (decide (k = BlockKey subnet)) as [-> | Hk2].
    { by rewrite lookup_delete_eq. }
    rewrite lookup_delete_ne by done.
    by rewrite !lookup_insert_ne.
Qed.

(** ** Pool membership and the listing of affine blocks *)

(** X21. On any backend whose listing holds the pool, enabled, every
    address of every block the sequential generator returns over that pool
    is within the configured pools. *)
Theorem withinConfiguredPools_of_generated_block {T : Type} (h : handler T) pool items
        s s1 n c d :
  h PoolsList s = (Ok items, s1) ->
  Exists (fun p => poolDisabled p = false /\ poolCIDR p = pool) items ->
  canonicalPool pool -> 0 < blockSize ->
  In (Some c) (outputs blocks n (blockGenerator pool)) ->
  0 <= d < blockSize ->
  interp h (withinConfiguredPools (incrementIP (netIP c) d)) s
  = (Returned true, s1, [PoolsList]).
Proof.
  intros Hl Hcfg Hc Hb Hin Hd.
  assert (Contains pool (incrementIP (netIP c) d) = true) as Hcont.
  { apply (blockGenerator_yielded_in_pool pool n); (done || lia). }
  unfold withinConfiguredPools. cbn [bind call interp]. rewrite Hl. cbn [bind interp].
  do 3 f_equal. clear Hl.
  induction Hcfg as [p rest [Hdis Hcidr] | p rest _ IH]; simpl.
  - by rewrite Hdis, Hcidr, Hcont.
  - rewrite IH. apply orb_true_r.
Qed.

Lemma extractCIDRs_all objs :
  Forall (fun o => isAffinityKey (kvKey o)) objs ->
  forall ids, extractCIDRs objs ids = Returned (ids ++ map (fun o => keyCIDR (kvKey o)) objs).
Proof.
  induction 1 as [| o rest Ho _ IH]; intros ids; simpl.
  - by rewrite app_nil_r.
  - destruct (kvKey o) as [| host cidr]; [done |]. rewrite IH.
    by rewrite <- app_assoc.
Qed.

Lemma extractCIDRs_panics objs :
  Exists (fun o => ~ isAffinityKey (kvKey o)) objs ->
  forall ids, exists msg, extractCIDRs objs ids = Panicked msg.
Proof.
  induction 1 as [o rest Ho | o rest _ IH]; intros ids; simpl.
  - destruct (kvKey o) as [cidr | host cidr]; [by eexists | by destruct Ho].
  - destruct (kvKey o) as [cidr | host cidr]; [by eexists | apply IH].
Qed.

(** X22. [getAffineBlocks] returns the CIDR of every affinity record the
    listing for the host and the version number gives, in the order of the
    listing and whatever pool is passed; a listing that fails with
    does-not-exist gives the empty list and no error, any other listing
    error is returned, and a listed pair under another kind of key makes
    the call panic. *)
Theorem getAffineBlocks_lists_all {T : Type}
        (backendList : BlockAffinityListOptions -> T -> result (list KVPair) * T)
        host ver pool s s1 :
  (forall objs,
      backendList (mkListOptions host (Number ver)) s = (Ok objs, s1) ->
      Forall (fun o => isAffinityKey (kvKey o)) objs ->
      getAffineBlocks backendList host ver pool s
      = (Returned (map (fun o => keyCIDR (kvKey o)) objs, None), s1))
  /\ (backendList (mkListOptions host (Number ver)) s = (Err ErrorResourceDoesNotExist, s1) ->
      getAffineBlocks backendList host ver pool s = (Returned ([], None), s1))
  /\ (forall e,
      backendList (mkListOptions host (Number ver)) s = (Err e, s1) ->
      isDoesNotExist e = false ->
      getAffineBlocks backendList host ver pool s = (Returned ([], Some e), s1))
  /\ (forall objs,
      backendList (mkListOptions host (Number ver)) s = (Ok objs, s1) ->
      Exists (fun o => ~ isAffinityKey (kvKey o)) objs ->
      exists msg, getAffineBlocks backendList host ver pool s = (Panicked msg, s1)).
Proof.
  unfold getAffineBlocks. split; [| split; [| split]].
  - intros objs Hl Hkeys. rewrite Hl. by rewrite extractCIDRs_all.
  - intros Hl. by rewrite Hl.
  - intros e Hl He. by rewrite Hl, He.
  - intros objs Hl Hbad. rewrite Hl.
    destruct (extractCIDRs_panics objs Hbad []) as [msg ->]. by exists msg.
Qed.

End ReaderWriter.

(** ** The generators on 10.0.0.0/24 with 64-address blocks *)

Lemma pool24_canonical : canonicalPool pool24.
Proof. unfold canonicalPool, poolSize; simpl. repeat split; lia. Qed.

(** C1 (the code falls short of it).  The pool 10.0.0.0/24 has 256
    addresses, so four blocks of 64; all four lie inside the pool, the last
    one from 10.0.0.192 to 10.0.0.255.  The sequential generator yields
    10.0.0.0/26, 10.0.0.64/26 and 10.0.0.128/26 and then its sentinel on
    every further call: three blocks, not floor(256/64) = 4. *)
Theorem blockGenerator_stops_one_block_early :
  poolSize pool24 / 64 = 4
  /\ Contains pool24 (netIP (block26 192)) = true
  /\ Contains pool24 (incrementIP (netIP (block26 192)) 63) = true
  /\ (forall m : nat,
        outputs (blocks 64) (3 + m) (blockGenerator stdIPv4 stdIPv6 pool24)
        = [Some (block26 0); Some (block26 64); Some (block26 128)] ++ repeat None m).
Proof.
  split; [reflexivity |]. split; [reflexivity |]. split; [reflexivity |].
  intros m.
  exact (blockGenerator_yields 64 stdIPv4 stdIPv6 pool24 m pool24_canonical eq_refl).
Qed.

(** C3 (the code falls short of it).  Over 10.0.0.0/24 with the index
    permutation 2, 0, 3, 1 the randomized generator yields the four blocks
    of the pool, 10.0.0.192/26 among them; the sequential generator never
    yields 10.0.0.192/26, however often it is called.  The two sets
    differ. *)
Theorem randomBlockGenerator_yields_more_than_sequential :
  option_map (outputs (randomBlocks 64) 5)
             (randomBlockGenerator 64 stdIPv4 stdIPv6 (fun _ => [2; 0; 3; 1]) pool24)
  = Some [Some (block26 64); Some (block26 192); Some (block26 0); Some (block26 128); None]
  /\ outputs (blocks 64) 5 (blockGenerator stdIPv4 stdIPv6 pool24)
     = [Some (block26 0); Some (block26 64); Some (block26 128); None; None]
  /\ (forall n, ~ In (Some (block26 192))
                     (outputs (blocks 64) n (blockGenerator stdIPv4 stdIPv6 pool24))).
Proof.
  split; [vm_compute; reflexivity |]. split; [vm_compute; reflexivity |].
  intros n.
  change (block26 192) with (nthBlock 64 stdIPv4 stdIPv6 pool24 3).
  apply blockGenerator_never_yields; [apply pool24_canonical | lia | reflexivity].
Qed.

(** ** Name conversion: encoding and decoding *)

Lemma stringsReplace_zero s old new : stringsReplace s old new 0 = s.
Proof. by destruct s. Qed.

Lemma stringsReplace_absent s old new n :
  stringsCount s old = O -> stringsReplace s old new n = s.
Proof.
  revert n. induction s as [| c rest IH]; intros n Hc; [done |].
  destruct n as [| n]; [done |]. simpl in *.
  destruct (Ascii.eqb c old); [done |]. by rewrite IH.
Qed.

(** Replacing back undoes a replacement, when the new byte was not there. *)
Lemma stringsReplace_inverse s old new n :
  stringsCount s new = O ->
  stringsReplace (stringsReplace s old new n) new old n = s.
Proof.
  revert n. induction s as [| c rest IH]; intros n Hc; [done |].
  destruct n as [| n]; [done |]. simpl in Hc.
  destruct (Ascii.eqb_spec c new) as [-> | Hcn]; [done |].
  cbn [stringsReplace]. destruct (Ascii.eqb_spec c old) as [-> | Hco].
  - cbn [stringsReplace]. rewrite Ascii.eqb_refl. by rewrite IH.
  - cbn [stringsReplace]. rewrite (proj2 (Ascii.eqb_neq c new)) by done. by rewrite IH.
Qed.

Lemma stringsCount_replace_other s old new c n :
  c <> old -> c <> new ->
  stringsCount (stringsReplace s old new n) c = stringsCount s c.
Proof.
  intros Ho Hn. revert n. induction s as [| a rest IH]; intros n; [done |].
  destruct n as [| n]; [done |]. cbn [stringsReplace].
  destruct (Ascii.eqb_spec a old) as [-> | Hao]; cbn [stringsCount].
  - rewrite (proj2 (Ascii.eqb_neq new c)) by done.
    rewrite (proj2 (Ascii.eqb_neq old c)) by done. apply IH.
  - destruct (Ascii.eqb a c); by rewrite IH.
Qed.

Lemma stringsCount_replace_new s old new n :
  old <> new -> stringsCount s new = O -> (stringsCount s old <= n)%nat ->
  stringsCount (stringsReplace s old new n) new = stringsCount s old
  /\ stringsCount (stringsReplace s old new n) old = O.
Proof.
  intros Hne. revert n. induction s as [| a rest IH]; intros n Hc Hn; [done |].
  simpl in Hc, Hn.
  destruct (Ascii.eqb_spec a new) as [-> | Han]; [done |].
  destruct (Ascii.eqb_spec a old) as [-> | Hao].
  - destruct n as [| n]; [lia |]. cbn [stringsReplace].
    rewrite Ascii.eqb_refl. cbn [stringsCount].
    rewrite Ascii.eqb_refl. rewrite (proj2 (Ascii.eqb_neq new old)) by done.
    destruct (IH n Hc ltac:(lia)) as [-> ->]. by rewrite ?Ascii.eqb_refl.
  - destruct n as [| n].
    + simpl. rewrite (proj2 (Ascii.eqb_neq a new)) by done.
      rewrite (proj2 (Ascii.eqb_neq a old)) by done.
      split; [lia | lia].
    + cbn [stringsReplace]. rewrite (proj2 (Ascii.eqb_neq a old)) by done.
      cbn [stringsCount]. rewrite (proj2 (Ascii.eqb_neq a new)) by done.
      rewrite (proj2 (Ascii.eqb_neq a old)) by done. by apply IH.
Qed.

Lemma stringsReplace_keep a rest old new n :
  a <> old ->
  stringsReplace (String a rest) old new n = String a (stringsReplace rest old new n).
Proof.
  intros Hne. destruct n as [| n].
  - rewrite (stringsReplace_zero rest). reflexivity.
  - cbn [stringsReplace]. by rewrite (proj2 (Ascii.eqb_neq a old)).
Qed.

Lemma prefix_empty s : String.prefix EmptyString s = true.
Proof. by destruct s. Qed.

(** The first byte after a replacement of every instance. *)
Lemma prefix1_replace s old new n :
  old <> new -> stringsCount s new = O -> (stringsCount s old <= n)%nat ->
  String.prefix (String new EmptyString) (stringsReplace s old new n)
  = String.prefix (String old EmptyString) s.
Proof.
  intros Hne Hc Hn. destruct s as [| a rest]; [done |]. simpl in Hc, Hn.
  destruct (Ascii.eqb_spec a new) as [-> | Han]; [done |].
  destruct (Ascii.eqb_spec a old) as [-> | Hao].
  - destruct n as [| n]; [lia |]. cbn [stringsReplace]. rewrite Ascii.eqb_refl.
    simpl. destruct (Ascii.ascii_dec new new); [| done].
    destruct (Ascii.ascii_dec old old); [| done]. by rewrite !prefix_empty.
  - rewrite stringsReplace_keep by done.
    simpl. destruct (Ascii.ascii_dec new a); [congruence |].
    by destruct (Ascii.ascii_dec old a); [congruence |].
Qed.

Lemma stringsContains_replace s old new n :
  old <> new -> stringsCount s new = O -> (stringsCount s old <= n)%nat ->
  stringsContains (stringsReplace s old new n) (String new (String new EmptyString))
  = stringsContains s (String old (String old EmptyString)).
Proof.
  intros Hne. revert n. induction s as [| a rest IH]; intros n Hc Hn; [done |].
  simpl in Hc, Hn.
  destruct (Ascii.eqb_spec a new) as [-> | Han]; [done |].
  destruct (Ascii.eqb_spec a old) as [-> | Hao].
  - destruct n as [| n]; [lia |]. cbn [stringsReplace]. rewrite Ascii.eqb_refl.
    cbn [stringsContains]. rewrite IH by (done || lia). f_equal.
    cbn [String.prefix]. destruct (Ascii.ascii_dec new new); [| done].
    destruct (Ascii.ascii_dec old old); [| done].
    apply prefix1_replace; (done || lia).
  - rewrite stringsReplace_keep by done.
    cbn [stringsContains]. rewrite IH by done. f_equal.
    cbn [String.prefix]. destruct (Ascii.ascii_dec new a); [congruence |].
    by destruct (Ascii.ascii_dec old a); [congruence |].
Qed.

(** Decoding the encoded form of a dotted or a colon string gives the
    string back. *)
Lemma decode_dotted s :
  dottedForm s ->
  resourceNameToIPString (stringsReplace (stringsReplace s "." "-" 3) ":" "-" 7) = s.
Proof.
  intros (Hcolon & Hdash & Hdots & Hpair).
  rewrite (stringsReplace_absent _ ":").
  2:{ by rewrite stringsCount_replace_other. }
  unfold resourceNameToIPString.
  rewrite stringsContains_replace by done. rewrite Hpair.
  destruct (stringsCount_replace_new s "." "-" 3) as [-> _]; [done | done | done |].
  rewrite (proj2 (Nat.ltb_ge _ _)) by done. simpl orb. cbv iota.
  by apply stringsReplace_inverse.
Qed.

Lemma decode_colon s :
  colonForm s ->
  resourceNameToIPString (stringsReplace (stringsReplace s "." "-" 3) ":" "-" 7) = s.
Proof.
  intros (Hdot & Hdash & Hcolons & Hsix).
  rewrite (stringsReplace_absent s ".") by done.
  unfold resourceNameToIPString.
  rewrite stringsContains_replace by done.
  destruct (stringsCount_replace_new s ":" "-" 7) as [-> _]; [done | done | done |].
  assert (stringsContains s "::" || (3 <? stringsCount s ":")%nat = true) as ->.
  { destruct Hsix as [-> | Hgt]; [done |].
    rewrite (proj2 (Nat.ltb_lt _ _)) by done. apply orb_true_r. }
  by apply stringsReplace_inverse.
Qed.

Lemma append_nil s : (EmptyString ++ s)%string = s.
Proof. reflexivity. Qed.

Lemma append_cons a s1 s2 : (String a s1 ++ s2)%string = String a (s1 ++ s2).
Proof. reflexivity. Qed.

Lemma stringsCount_app s1 s2 c :
  stringsCount (s1 ++ s2) c = (stringsCount s1 c + stringsCount s2 c)%nat.
Proof.
  induction s1 as [| a rest IH]; [done |]. rewrite append_cons. simpl.
  destruct (Ascii.eqb a c); by rewrite IH.
Qed.

Lemma stringsReplace_app s1 s2 old new n :
  (stringsCount s1 old <= n)%nat ->
  stringsReplace (s1 ++ s2) old new n
  = (stringsReplace s1 old new n
     ++ stringsReplace s2 old new (n - stringsCount s1 old))%string.
Proof.
  revert n. induction s1 as [| a rest IH]; intros n Hn.
  - rewrite !append_nil. simpl. by rewrite Nat.sub_0_r.
  - simpl in Hn. rewrite append_cons. destruct (Ascii.eqb_spec a old) as [-> | Hne].
    + destruct n as [| n]; [lia |]. cbn [stringsReplace stringsCount].
      rewrite Ascii.eqb_refl. rewrite append_cons, IH by lia. done.
    + rewrite !stringsReplace_keep by done. cbn [stringsCount].
      rewrite (proj2 (Ascii.eqb_neq a old)) by done. by rewrite append_cons, IH.
Qed.

Lemma stringsLastIndex_absent s c :
  stringsCount s c = O -> stringsLastIndex s c = -1.
Proof.
  induction s as [| a rest IH]; [done |]. simpl.
  destruct (Ascii.eqb a c); [done |]. intros H. by rewrite IH.
Qed.

Lemma stringsLastIndex_present s c :
  stringsCount s c <> O -> 0 <= stringsLastIndex s c.
Proof.
  induction s as [| a rest IH]; [done |]. simpl.
  destruct (Z.leb_spec 0 (stringsLastIndex rest c)) as [Hr | Hr]; [lia |].
  destruct (Ascii.eqb a c); [lia |]. intros H. specialize (IH H). lia.
Qed.

(** The last instance of a byte that does not occur after it. *)
Lemma stringsLastIndex_app s1 s2 c :
  stringsCount s2 c = O ->
  stringsLastIndex (s1 ++ String c s2) c = Z.of_nat (String.length s1).
Proof.
  intros Hc. induction s1 as [| a rest IH].
  - rewrite append_nil. simpl. rewrite stringsLastIndex_absent by done. simpl.
    by rewrite Ascii.eqb_refl.
  - rewrite append_cons. cbn [stringsLastIndex String.length]. rewrite IH.
    rewrite (proj2 (Z.leb_le _ _)) by lia. lia.
Qed.

Lemma substring_all s : String.substring 0 (String.length s) s = s.
Proof. induction s as [| a rest IH]; [done |]. simpl. by rewrite IH. Qed.

Lemma sliceTo_app s1 s2 : sliceTo (s1 ++ s2) (Z.of_nat (String.length s1)) = s1.
Proof.
  unfold sliceTo. rewrite Nat2Z.id.
  induction s1 as [| a rest IH]; [by destruct s2 |].
  rewrite append_cons. simpl. by rewrite IH.
Qed.

Lemma string_length_app s1 s2 :
  String.length (s1 ++ s2) = (String.length s1 + String.length s2)%nat.
Proof.
  induction s1 as [| a rest IH]; [done |]. rewrite append_cons. simpl. by rewrite IH.
Qed.

Lemma sliceFrom_app s1 c s2 :
  sliceFrom (s1 ++ String c s2) (Z.of_nat (String.length s1) + 1) = s2.
Proof.
  unfold sliceFrom.
  replace (Z.to_nat (Z.of_nat (String.length s1) + 1)) with (S (String.length s1)) by lia.
  rewrite string_length_app. cbn [String.length].
  replace (String.length s1 + S (String.length s2) - S (String.length s1))%nat
    with (String.length s2) by lia.
  induction s1 as [| a rest IH]; [apply substring_all |].
  rewrite append_cons. exact IH.
Qed.

(** The name of a network whose text is an address in dotted or colon
    form, a slash and a size. *)
Lemma IPNetToResourceName_split IPNetString net ipS sz :
  IPNetString net = (ipS ++ "/" ++ sz)%string ->
  dottedForm ipS \/ colonForm ipS ->
  stringsCount ipS "/" = O ->
  stringsCount sz "." = O -> stringsCount sz ":" = O -> stringsCount sz "/" = O ->
  IPNetToResourceName IPNetString net
  = (stringsReplace (stringsReplace ipS "." "-" 3) ":" "-" 7 ++ String "-" sz)%string.
Proof.
  intros Hstr Hform Hslash Hd Hc Hs. unfold IPNetToResourceName. rewrite Hstr.
  assert ((stringsCount ipS "." <= 3)%nat /\ (stringsCount ipS ":" <= 7)%nat) as [H3 H7].
  { destruct Hform as [(H1 & _ & H2 & _) | (H1 & _ & H2 & _)]; lia. }
  rewrite stringsReplace_app by done.
  rewrite (stringsReplace_absent ("/" ++ sz)) by (simpl; done).
  rewrite stringsReplace_app by (by rewrite stringsCount_replace_other).
  rewrite (stringsReplace_absent ("/" ++ sz)) by (simpl; done).
  rewrite stringsReplace_app by (rewrite !stringsCount_replace_other by done; lia).
  rewrite !stringsCount_replace_other by done. rewrite Hslash.
  rewrite (stringsReplace_absent _ "/") by (by rewrite !stringsCount_replace_other).
  simpl. by rewrite stringsReplace_zero.
Qed.

(** X23. For an address whose text is in dotted or colon form,
    [ResourceNameToIP] applied to the name that [IPToResourceName] gives
    parses exactly that text: the result is what [ParseIP] makes of the
    text of the address, and its failure is the invalid-name error. *)
Theorem ResourceNameToIP_of_name IPString ParseIP ip :
  dottedForm (IPString ip) \/ colonForm (IPString ip) ->
  resourceNameToIPString (IPToResourceName IPString ip) = IPString ip
  /\ ResourceNameToIP ParseIP (IPToResourceName IPString ip)
     = match ParseIP (IPString ip) with
       | Some ip' => inl ip'
       | None =>
           inr (Errorf "invalid resource name %s: does not follow Calico IP name format"
                       (IPToResourceName IPString ip))
       end.
Proof.
  intros Hform.
  assert (resourceNameToIPString (IPToResourceName IPString ip) = IPString ip) as Hdec.
  { unfold IPToResourceName. destruct Hform; [by apply decode_dotted | by apply decode_colon]. }
  split; [done |]. unfold ResourceNameToIP. by rewrite Hdec.
Qed.

(** X24. For a network whose text is an address in dotted or colon form, a
    slash and a size without dot, colon, dash or slash,
    [ResourceNameToIPNet] applied to the name that [IPNetToResourceName]
    gives hands exactly that text to [ParseCIDR]. *)
Theorem ResourceNameToIPNet_of_name IPNetString ParseCIDR net ipS sz :
  IPNetString net = (ipS ++ "/" ++ sz)%string ->
  dottedForm ipS \/ colonForm ipS ->
  stringsCount ipS "/" = O ->
  stringsCount sz "." = O -> stringsCount sz ":" = O ->
  stringsCount sz "-" = O -> stringsCount sz "/" = O ->
  ResourceNameToIPNet ParseCIDR (IPNetToResourceName IPNetString net)
  = match ParseCIDR (IPNetString net) with
    | Some cidr => inl cidr
    | None =>
        inr (Errorf "invalid resource name %s: does not follow Calico IPNet name format"
                    (IPNetToResourceName IPNetString net))
    end.
Proof.
  intros Hstr Hform Hslash Hd Hc Hm Hs.
  rewrite (IPNetToResourceName_split IPNetString net ipS sz) by done.
  unfold ResourceNameToIPNet.
  rewrite stringsLastIndex_app by done.
  rewrite (proj2 (Z.eqb_neq _ (-1))) by lia.
  rewrite sliceTo_app, sliceFrom_app.
  assert (resourceNameToIPString (stringsReplace (stringsReplace ipS "." "-" 3) ":" "-" 7)
          = ipS) as ->.
  { destruct Hform; [by apply decode_dotted | by apply decode_colon]. }
  by rewrite Hstr.
Qed.

(** X25. A name without a dash is rejected by [ResourceNameToIPNet] with the
    invalid-name error, whatever [ParseCIDR] would accept. *)
Theorem ResourceNameToIPNet_no_dash ParseCIDR name :
  stringsCount name "-" = O ->
  ResourceNameToIPNet ParseCIDR name
  = inr (Errorf "invalid resource name: %s: does not follow Calico IPNet name format" name).
Proof.
  intros Hc. unfold ResourceNameToIPNet. by rewrite stringsLastIndex_absent.
Qed.

(** X26. The names of addresses and networks hold no dot, no colon and no
    slash, for texts in dotted or colon form. *)
Theorem resource_names_are_plain IPString IPNetString ip net ipS sz :
  dottedForm (IPString ip) \/ colonForm (IPString ip) ->
  IPNetString net = (ipS ++ "/" ++ sz)%string ->
  dottedForm ipS \/ colonForm ipS ->
  stringsCount ipS "/" = O ->
  stringsCount sz "." = O -> stringsCount sz ":" = O -> stringsCount sz "/" = O ->
  (stringsCount (IPToResourceName IPString ip) "." = O
   /\ stringsCount (IPToResourceName IPString ip) ":" = O)
  /\ (stringsCount (IPNetToResourceName IPNetString net) "." = O
      /\ stringsCount (IPNetToResourceName IPNetString net) ":" = O
      /\ stringsCount (IPNetToResourceName IPNetString net) "/" = O).
Proof.
  assert (forall s, dottedForm s \/ colonForm s ->
            stringsCount (stringsReplace (stringsReplace s "." "-" 3) ":" "-" 7) "." = O
            /\ stringsCount (stringsReplace (stringsReplace s "." "-" 3) ":" "-" 7) ":" = O)
    as Hplain.
  { intros s [(Hcolon & Hdash & Hdots & _) | (Hdot & Hdash & Hcolons & _)].
    - destruct (stringsCount_replace_new s "." "-" 3) as [_ Hnodot]; [done | done | done |].
      rewrite (stringsReplace_absent _ ":") by (by rewrite stringsCount_replace_other).
      split; [done |]. by rewrite stringsCount_replace_other.
    - rewrite (stringsReplace_absent s ".") by done.
      destruct (stringsCount_replace_new s ":" "-" 7) as [_ Hnocolon]; [done | done | done |].
      split; [| done]. by rewrite stringsCount_replace_other. }
  intros Hip Hstr Hform Hslash Hd Hc Hs. split; [by apply Hplain |].
  rewrite (IPNetToResourceName_split IPNetString net ipS sz) by done.
  destruct (Hplain ipS Hform) as [H1 H2].
  rewrite !stringsCount_app, H1, H2. cbn [stringsCount Ascii.eqb Bool.eqb].
  rewrite !stringsCount_replace_other by done.
  rewrite Hd, Hc, Hs, Hslash. done.
Qed.

(** ** The theorems at concrete inputs *)

(** Two callers on hostA race for 10.0.0.0/26: the first finds it free, the
    second claims it, the first then finds it held by its own host. *)
Lemma no_double_ownership_witness :
  let calls := [ClaimNewAffineBlock 5 "hostA" stdIPv4 (Some pool24) lenient;
                ClaimBlockAffinity (block26 0) "hostA" lenient] in
  let init := mkSystem emptyStore (map (runCall 64 stdIPv4 stdIPv6) calls) in
  let final := schedule [0; 0; 1; 1; 0; 0; 0]%nat init in
  rtc sysStep init final
  /\ sysThreads final !! 0%nat = Some (Ret (Some (block26 0, "hostA")))
  /\ sysThreads final !! 1%nat = Some (Ret (Some (block26 0, "hostA")))
  /\ "hostA" = "hostA"
  /\ ownerOf (sysStore final) (block26 0) = Some "hostA".
Proof.
  intros calls init final.
  assert (rtc sysStep init final) as Hr by apply schedule_reachable.
  assert (sysThreads final !! 0%nat = Some (Ret (Some (block26 0, "hostA")))) as H0
    by (vm_compute; reflexivity).
  assert (sysThreads final !! 1%nat = Some (Ret (Some (block26 0, "hostA")))) as H1
    by (vm_compute; reflexivity).
  exact (conj Hr (conj H0 (conj H1
           (no_double_ownership 64 stdIPv4 stdIPv6 emptyStore calls final 0 1
                                (block26 0) "hostA" "hostA" Hr H0 H1)))).
Defined.

(** hostA scans 10.0.0.0/24 while hostB holds 10.0.0.0/26: the first block
    is passed over and 10.0.0.64/26 is claimed.  With all three candidates
    taken, there are no free blocks. *)
Lemma claimNewAffineBlock_scan_witness :
  let st := putBlocks [heldBy 0 (Some "hostB") []] emptyStore in
  let full := putBlocks [heldBy 0 (Some "hostB") []; heldBy 64 (Some "hostB") [];
                         heldBy 128 (Some "hostB") []] emptyStore in
  interp memBackend (claimNewAffineBlock 64 stdIPv4 stdIPv6 5 "hostA" stdIPv4
                                         (Some pool24) lenient) st
  = prepend ([PoolsList] ++ [Get (BlockKey (block26 0))] ++ [Get (BlockKey (block26 64))])
      (mapOutcome (fun err => Some (Some (block26 64), err))
                  (interp memBackend (claimBlockAffinity (block26 64) "hostA" lenient) st))
  /\ interp memBackend (claimNewAffineBlock 64 stdIPv4 stdIPv6 5 "hostA" stdIPv4
                                            (Some pool24) lenient) full
     = (Returned (Some (None, Some (noFreeBlocksError "No Free Blocks"))), full,
        [PoolsList] ++ [Get (BlockKey (block26 0)); Get (BlockKey (block26 64));
                        Get (BlockKey (block26 128))]).
Proof.
  intros st full.
  assert (Forall2 (yieldsWithin 64 stdIPv4 stdIPv6 5) [pool24]
                  [[block26 0; block26 64; block26 128]]) as Hy.
  { repeat constructor. }
  split.
  - eapply (proj1 (claimNewAffineBlock_scan 64 stdIPv4 stdIPv6 memBackend 5 "hostA" stdIPv4
                     (Some pool24) lenient st [pool24] st [PoolsList]
                     [[block26 0; block26 64; block26 128]]
                     eq_refl ltac:(discriminate) Hy)
             [block26 0] (block26 64) [block26 128]).
    + reflexivity.
    + eapply found_cons; [reflexivity | apply found_nil].
    + reflexivity.
  - eapply (proj2 (claimNewAffineBlock_scan 64 stdIPv4 stdIPv6 memBackend 5 "hostA" stdIPv4
                     (Some pool24) lenient full [pool24] full [PoolsList]
                     [[block26 0; block26 64; block26 128]]
                     eq_refl ltac:(discriminate) Hy)).
    eapply found_cons; [reflexivity |].
    eapply found_cons; [reflexivity |].
    eapply found_cons; [reflexivity | apply found_nil].
Defined.

(** hostA claims 10.0.0.0/26 while its own block record is already in the
    store, and claims it twice from the empty store. *)
Lemma claimBlockAffinity_idempotent_witness :
  let held := putBlocks [heldBy 0 (Some "hostA") []] emptyStore in
  interp memBackend (claimBlockAffinity (block26 0) "hostA" lenient) held
  = (Returned None,
     snd (memBackend (Create (affinityPair "hostA" (block26 0))) held),
     [Create (affinityPair "hostA" (block26 0));
      Create (claimedBlockPair "hostA" (block26 0) lenient);
      Get (BlockKey (block26 0))])
  /\ exists st1 tr1,
       interp memBackend (claimBlockAffinity (block26 0) "hostA" lenient) emptyStore
       = (Returned None, st1, tr1)
       /\ (forall e, kvs emptyStore !! BlockKey (block26 0) = Some e ->
                     kvs st1 !! BlockKey (block26 0) = Some e)
       /\ ownerOf st1 (block26 0) = Some "hostA"
       /\ interp memBackend (claimBlockAffinity (block26 0) "hostA" lenient) st1
          = (Returned None, st1,
             [Create (affinityPair "hostA" (block26 0));
              Create (claimedBlockPair "hostA" (block26 0) lenient);
              Get (BlockKey (block26 0))]).
Proof.
  intros held. split.
  - eapply (proj1 (claimBlockAffinity_idempotent (block26 0) "hostA" lenient)
                  Store memBackend held); reflexivity.
  - apply (proj2 (claimBlockAffinity_idempotent (block26 0) "hostA" lenient) emptyStore).
    left. reflexivity.
Defined.

(** hostA loses 10.0.0.0/26 to hostB: on the in-memory store its affinity
    record is deleted and the error carries hostB's block; on a backend that
    refuses the delete, the delete error is returned. *)
Lemma claimBlockAffinity_lost_race_witness :
  let st := putBlocks [heldBy 0 (Some "hostB") []] emptyStore in
  let b := heldBy 0 (Some "hostB") [] in
  CIDR b = block26 0
  /\ HostAffinity b <> Some "hostA"
  /\ fst (fst (interp memBackend (claimBlockAffinity (block26 0) "hostA" lenient) st))
     = Returned (Some (affinityClaimedError b))
  /\ fst (fst (interp noDeleteBackend (claimBlockAffinity (block26 0) "hostA" lenient) st))
     = Returned (Some (ErrorDatastore "delete refused")).
Proof.
  intros st b.
  assert (HostAffinity b <> Some "hostA") as Hne by discriminate.
  split; [reflexivity |]. split; [exact Hne |]. split.
  - erewrite (claimBlockAffinity_lost_race memBackend (block26 0) "hostA" lenient st
                _ _ _ _ _ b None _ eq_refl eq_refl eq_refl eq_refl eq_refl Hne eq_refl).
    reflexivity.
  - erewrite (claimBlockAffinity_lost_race noDeleteBackend (block26 0) "hostA" lenient st
                _ _ _ _ _ b (Some (ErrorDatastore "delete refused")) _
                eq_refl eq_refl eq_refl eq_refl eq_refl Hne eq_refl).
    reflexivity.
Defined.

(** hostB tries to release hostA's block. *)
Lemma releaseBlockAffinity_rejects_foreign_host_witness :
  let b := heldBy 0 (Some "hostA") [7] in
  let st := putBlocks [b] emptyStore in
  (0 < 100)%nat
  /\ HostAffinity b = Some "hostA"
  /\ "hostA" <> "hostB"
  /\ interp memBackend (releaseBlockAffinity 100 "hostB" (block26 0)) st
     = (Returned (Some (affinityClaimedError b)), st, [Get (BlockKey (block26 0))]).
Proof.
  intros b st.
  assert ((0 < 100)%nat) as Hn by lia.
  assert ("hostA" <> "hostB") as Hne by discriminate.
  split; [exact Hn |]. split; [reflexivity |]. split; [exact Hne |].
  apply (proj2 (releaseBlockAffinity_rejects_foreign_host 100 (block26 0) b "hostA" "hostB"
                  Hn eq_refl Hne) st 1).
  reflexivity.
Defined.

(** hostA releases its empty block, whose affinity record is in the store. *)
Lemma releaseBlockAffinity_converges_witness :
  let b := heldBy 0 (Some "hostA") [] in
  let st := snd (memBackend (Create (affinityPair "hostA" (block26 0)))
                            (putBlocks [b] emptyStore)) in
  (0 < 100)%nat
  /\ kvs st !! BlockKey (block26 0) = Some (mkEntry (VAllocationBlock b) 1)
  /\ exists st',
       interp memBackend (releaseBlockAffinity 100 "hostA" (block26 0)) st
       = (Returned None, st',
          [Get (BlockKey (block26 0)); Delete (blockKeyOnly (block26 0));
           Delete (affinityKeyOnly "hostA" (block26 0))])
       /\ kvs st' = delete (BlockAffinityKey "hostA" (block26 0))
                           (delete (BlockKey (block26 0)) (kvs st)).
Proof.
  intros b st.
  assert ((0 < 100)%nat) as Hn by lia.
  assert (kvs st !! BlockKey (block26 0) = Some (mkEntry (VAllocationBlock b) 1)) as Hblk
    by reflexivity.
  split; [exact Hn |]. split; [exact Hblk |].
  exact (releaseBlockAffinity_converges 100 st (block26 0) b 1 "hostA"
           Hn Hblk eq_refl eq_refl).
Defined.

(** hostC releases a block that has leases and no affinity. *)
Lemma releaseBlockAffinity_unaffiliated_witness :
  let b := heldBy 0 None [7] in
  let st := putBlocks [b] emptyStore in
  (0 < 100)%nat
  /\ kvs st !! BlockKey (block26 0) = Some (mkEntry (VAllocationBlock b) 1)
  /\ exists st',
       interp memBackend (releaseBlockAffinity 100 "hostC" (block26 0)) st
       = (Returned None, st',
          [Get (BlockKey (block26 0));
           Update (mkKV (BlockKey (block26 0)) (VAllocationBlock (clearAffinity b)) (Some 1));
           Delete (affinityKeyOnly "hostC" (block26 0))])
       /\ kvs st' !! BlockKey (block26 0) = Some (mkEntry (VAllocationBlock b) 2)
       /\ kvs st' !! BlockAffinityKey "hostC" (block26 0) = None.
Proof.
  intros b st.
  assert ((0 < 100)%nat) as Hn by lia.
  assert (kvs st !! BlockKey (block26 0) = Some (mkEntry (VAllocationBlock b) 1)) as Hblk
    by reflexivity.
  split; [exact Hn |]. split; [exact Hblk |].
  exact (releaseBlockAffinity_unaffiliated 100 st (block26 0) b 1 "hostC"
           Hn Hblk eq_refl eq_refl).
Defined.

(** hostA releases a block with a lease while a concurrent writer touches
    the record: once, and the second iteration succeeds after five calls;
    before every one of three allowed iterations, and the retries run out. *)
Lemma releaseBlockAffinity_conflict_retry_witness :
  let b := heldBy 0 (Some "hostA") [7] in
  let st := putBlocks [b] emptyStore in
  (exists s5 tr,
      interp racingBackend (releaseBlockAffinity 100 "hostA" (block26 0)) (st, 1%nat)
      = (Returned None, s5, tr)
      /\ length tr = 5%nat)
  /\ (exists s' tr,
      interp racingBackend (releaseBlockAffinity 3 "hostA" (block26 0)) (st, 3%nat)
      = (Returned (Some (errorsNew "Max retries hit" [])), s', tr)
      /\ length tr = 6%nat).
Proof.
  intros b st. split.
  - eexists _, _. split.
    + eapply (proj1 (proj2 (releaseBlockAffinity_conflict_retry 100 racingBackend
                              "hostA" (block26 0)))).
      * lia.
      * eapply conflict_round;
          [reflexivity | reflexivity | reflexivity | reflexivity | reflexivity
          | apply conflict_none].
      * reflexivity.
      * reflexivity.
      * reflexivity.
      * reflexivity.
      * reflexivity.
      * reflexivity.
    + reflexivity.
  - eexists _, _. split.
    + eapply (proj2 (proj2 (releaseBlockAffinity_conflict_retry 3 racingBackend
                              "hostA" (block26 0)))).
      repeat (eapply conflict_round;
              [reflexivity | reflexivity | reflexivity | reflexivity | reflexivity |]).
      apply conflict_none.
    + reflexivity.
Defined.

(** ** The further properties at concrete inputs *)


Lemma blockGenerator_blocks_in_pool_witness :
  In (Some (block26 128)) (outputs (blocks 64) 3 (blockGenerator stdIPv4 stdIPv6 pool24))
  /\ 0 <= 64 <= 64
  /\ Contains pool24 (incrementIP (netIP (block26 128)) 64) = true.
Proof.
  assert (In (Some (block26 128))
             (outputs (blocks 64) 3 (blockGenerator stdIPv4 stdIPv6 pool24))) as Hin.
  { right. right. left. reflexivity. }
  assert (0 <= 64 <= 64) as Hd by lia.
  split; [exact Hin |]. split; [exact Hd |].
  exact (blockGenerator_blocks_in_pool 64 stdIPv4 stdIPv6 pool24 3 (block26 128) 64
           pool24_canonical eq_refl Hin Hd).
Defined.




Lemma claimBlockAffinity_creates_records_witness :
  exists st' rev,
    interp memBackend (claimBlockAffinity (block26 0) "hostA" lenient) emptyStore
    = (Returned None, st',
       [Create (affinityPair "hostA" (block26 0));
        Create (claimedBlockPair "hostA" (block26 0) lenient)])
    /\ kvs st' !! BlockKey (block26 0)
       = Some (mkEntry (VAllocationBlock (mkBlock (block26 0) (Some "hostA") false [])) rev)
    /\ is_Some (kvs st' !! BlockAffinityKey "hostA" (block26 0))
    /\ (forall k, k <> BlockKey (block26 0) -> k <> BlockAffinityKey "hostA" (block26 0) ->
                  kvs st' !! k = kvs emptyStore !! k).
Proof.
  apply (claimBlockAffinity_creates_records emptyStore (block26 0) "hostA" lenient).
  reflexivity.
Defined.

(** The store refuses the creation of block records; then, with the block
    held by hostB, it refuses reads. *)
Lemma claimBlockAffinity_propagates_errors_witness :
  let noBlocks := refusingBackend (fun op => match op with
                                             | Create (mkKV (BlockKey _) _ _) => true
                                             | _ => false
                                             end) in
  let noReads := refusingBackend (fun op => match op with Get _ => true | _ => false end) in
  let held := putBlocks [heldBy 0 (Some "hostB") []] emptyStore in
  fst (fst (interp noBlocks (claimBlockAffinity (block26 0) "hostA" lenient) emptyStore))
  = Returned (Some (ErrorDatastore "refused"))
  /\ fst (fst (interp noReads (claimBlockAffinity (block26 0) "hostA" lenient) held))
     = Returned (Some (ErrorDatastore "refused")).
Proof.
  intros noBlocks noReads held. split.
  - erewrite (proj1 (claimBlockAffinity_propagates_errors noBlocks (block26 0) "hostA"
                       lenient emptyStore _ _ (ErrorDatastore "refused") _ eq_refl));
      reflexivity.
  - erewrite (proj2 (claimBlockAffinity_propagates_errors noReads (block26 0) "hostA"
                       lenient held _ _ (ErrorDatastore "refused") _ eq_refl));
      reflexivity.
Defined.

(** hostA claims 10.0.0.0/26 while hostB holds it. *)
Lemma claimBlockAffinity_keeps_other_records_witness :
  let held := putBlocks [heldBy 0 (Some "hostB") [7]] emptyStore in
  let run := interp memBackend (claimBlockAffinity (block26 0) "hostA" lenient) held in
  (forall k e, (forall c, k <> BlockAffinityKey "hostA" c) ->
               kvs held !! k = Some e -> kvs (snd (fst run)) !! k = Some e)
  /\ (forall k, kvs held !! k = None -> is_Some (kvs (snd (fst run)) !! k) ->
                k = BlockKey (block26 0) \/ exists c, k = BlockAffinityKey "hostA" c).
Proof.
  intros held run.
  apply (claimBlockAffinity_keeps_other_records held (block26 0) "hostA" lenient
           (fst (fst run)) (snd (fst run)) (snd run)).
  unfold run. by destruct (interp memBackend _ held) as [[o st'] tr].
Defined.

Lemma claimNewAffineBlock_keeps_records_witness :
  let held := putBlocks [heldBy 0 (Some "hostB") [7]] emptyStore in
  let run := interp memBackend (claimNewAffineBlock 64 stdIPv4 stdIPv6 5 "hostA" stdIPv4
                                                    (Some pool24) lenient) held in
  (forall k e, (forall c, k <> BlockAffinityKey "hostA" c) ->
               kvs held !! k = Some e -> kvs (snd (fst run)) !! k = Some e)
  /\ (forall k, kvs held !! k = None -> is_Some (kvs (snd (fst run)) !! k) ->
                (exists c, k = BlockKey c) \/ exists c, k = BlockAffinityKey "hostA" c).
Proof.
  intros held run.
  apply (claimNewAffineBlock_keeps_records 64 stdIPv4 stdIPv6 held 5 "hostA" stdIPv4
           (Some pool24) lenient (fst (fst run)) (snd (fst run)) (snd run)).
  unfold run. by destruct (interp memBackend _ held) as [[o st'] tr].
Defined.


(** hostA scans 10.0.0.0/24 with 10.0.0.0/26 taken, on a store that refuses
    the read of 10.0.0.64/26. *)
Lemma claimNewAffineBlock_read_error_witness :
  let flaky := refusingBackend (fun op => match op with
                                          | Get k => bool_decide (k = BlockKey (block26 64))
                                          | _ => false
                                          end) in
  let held := putBlocks [heldBy 0 (Some "hostB") []] emptyStore in
  interp flaky (claimNewAffineBlock 64 stdIPv4 stdIPv6 5 "hostA" stdIPv4 (Some pool24)
                                    lenient) held
  = (Returned (Some (None, Some (ErrorDatastore "refused"))), held,
     [PoolsList] ++ [Get (BlockKey (block26 0))] ++ [Get (BlockKey (block26 64))]).
Proof.
  intros flaky held.
  assert (Forall2 (yieldsWithin 64 stdIPv4 stdIPv6 5) [pool24]
                  [[block26 0; block26 64; block26 128]]) as Hy.
  { repeat constructor. }
  eapply (claimNewAffineBlock_read_error 64 stdIPv4 stdIPv6 flaky 5 "hostA" stdIPv4
            (Some pool24) lenient held [pool24] held [PoolsList]
            [[block26 0; block26 64; block26 128]] [block26 0] (block26 64) [block26 128]
            held [Get (BlockKey (block26 0))] (ErrorDatastore "refused") held
            eq_refl ltac:(discriminate) Hy eq_refl).
  - eapply found_cons; [reflexivity | apply found_nil].
  - reflexivity.
  - reflexivity.
Defined.

(** 10.0.1.0/24 is not configured; 10.0.0.0/24 is, but is not IPv6. *)
Lemma claimNewAffineBlock_given_pool_rejected_witness :
  let other := mkIPNet (ip4 10 0 1 0) (CIDRMask 24 32) in
  interp memBackend (claimNewAffineBlock 64 stdIPv4 stdIPv6 5 "hostA" stdIPv4 (Some other)
                                         lenient) emptyStore
  = (Returned (Some (None, Some (errorsNew "The given pool (%s) does not exist"
                                           [ArgNet other]))),
     emptyStore, [PoolsList])
  /\ interp memBackend (claimNewAffineBlock 64 stdIPv4 stdIPv6 5 "hostA" stdIPv6
                                            (Some pool24) lenient) emptyStore
     = (Returned (Some (None, Some (errorsNew
                                      "The given pool (%s) does not match IP version %d"
                                      [ArgNet pool24; ArgInt 6]))),
        emptyStore, [PoolsList]).
Proof.
  intros other. split.
  - apply (proj1 (claimNewAffineBlock_given_pool_rejected 64 stdIPv4 stdIPv6 memBackend 5
                    "hostA" stdIPv4 other lenient emptyStore [mkPool pool24 false]
                    emptyStore eq_refl)).
    constructor; [right; discriminate | constructor].
  - apply (proj2 (claimNewAffineBlock_given_pool_rejected 64 stdIPv4 stdIPv6 memBackend 5
                    "hostA" stdIPv6 pool24 lenient emptyStore [mkPool pool24 false]
                    emptyStore eq_refl)).
    + left. split; reflexivity.
    + discriminate.
Defined.

(** The listing is refused; then the only pool listed is disabled. *)
Lemma claimNewAffineBlock_no_pools_witness :
  let noList := refusingBackend (fun op => match op with PoolsList => true | _ => false end) in
  let disabled := mkStore ∅ 0 [mkPool pool24 true] in
  interp noList (claimNewAffineBlock 64 stdIPv4 stdIPv6 5 "hostA" stdIPv4 None lenient)
         emptyStore
  = (Returned (Some (None, Some (ErrorDatastore "refused"))), emptyStore, [PoolsList])
  /\ interp memBackend (claimNewAffineBlock 64 stdIPv4 stdIPv6 5 "hostA" stdIPv4 None
                                            lenient) disabled
     = (Returned (Some (None, Some (errorsNew "No configured Calico pools" []))),
        disabled, [PoolsList]).
Proof.
  intros noList disabled. split.
  - apply (proj1 (claimNewAffineBlock_no_pools 64 stdIPv4 stdIPv6 noList 5 "hostA" stdIPv4
                    lenient emptyStore emptyStore)).
    reflexivity.
  - apply (proj2 (claimNewAffineBlock_no_pools 64 stdIPv4 stdIPv6 memBackend 5 "hostA"
                    stdIPv4 lenient disabled disabled) [mkPool pool24 true] eq_refl).
    constructor; [left; reflexivity | constructor].
Defined.

(** The pool 10.0.0.0/26 is exactly one block, and the store is empty. *)
Lemma claimNewAffineBlock_single_block_pool_witness :
  let pool26 := block26 0 in
  let st := mkStore ∅ 0 [mkPool pool26 false] in
  canonicalPool pool26 /\ poolSize pool26 <= 64
  /\ interp memBackend (claimNewAffineBlock 64 stdIPv4 stdIPv6 5 "hostA" stdIPv4
                                            (Some pool26) lenient) st
     = (Returned (Some (None, Some (noFreeBlocksError "No Free Blocks"))), st, [PoolsList]).
Proof.
  intros pool26 st.
  assert (canonicalPool pool26) as Hc.
  { unfold canonicalPool, poolSize; simpl. repeat split; lia. }
  assert (poolSize pool26 <= 64) as Hsmall by (unfold poolSize; simpl; lia).
  split; [exact Hc |]. split; [exact Hsmall |].
  apply (claimNewAffineBlock_single_block_pool 64 stdIPv4 stdIPv6 memBackend 5 "hostA"
           stdIPv4 pool26 lenient st [mkPool pool26 false] st eq_refl).
  - left. split; reflexivity.
  - reflexivity.
  - exact Hc.
  - reflexivity.
  - exact Hsmall.
  - lia.
Defined.

(** hostA releases 10.0.0.0/26, which has no block record; its affinity
    record stays. *)
Lemma releaseBlockAffinity_missing_block_witness :
  let st := snd (memBackend (Create (affinityPair "hostA" (block26 0))) emptyStore) in
  (0 < 100)%nat
  /\ kvs st !! BlockKey (block26 0) = None
  /\ interp memBackend (releaseBlockAffinity 100 "hostA" (block26 0)) st
     = (Returned (Some ErrorResourceDoesNotExist), st, [Get (BlockKey (block26 0))]).
Proof.
  intros st.
  assert ((0 < 100)%nat) as Hn by lia.
  split; [exact Hn |]. split; [reflexivity |].
  apply (proj2 (releaseBlockAffinity_missing_block 100 "hostA" (block26 0) Hn) st).
  reflexivity.
Defined.

(** hostA releases its empty block, and its block with a lease, with no
    affinity record in the store: the deletion of the affinity record
    answers does-not-exist. *)
Lemma releaseBlockAffinity_tolerates_deletes_witness :
  let idle := putBlocks [heldBy 0 (Some "hostA") []] emptyStore in
  let busy := putBlocks [heldBy 0 (Some "hostA") [7]] emptyStore in
  fst (fst (interp memBackend (releaseBlockAffinity 100 "hostA" (block26 0)) idle))
  = Returned None
  /\ fst (fst (interp memBackend (releaseBlockAffinity 100 "hostA" (block26 0)) busy))
     = Returned None.
Proof.
  intros idle busy.
  assert ((0 < 100)%nat) as Hn by lia.
  split.
  - erewrite (proj1 (releaseBlockAffinity_tolerates_deletes 100 memBackend "hostA"
                       (block26 0) idle _ _ (heldBy 0 (Some "hostA") [])
                       Hn eq_refl eq_refl eq_refl)
                _ _ (Some ErrorResourceDoesNotExist) _ eq_refl eq_refl (or_introl eq_refl)
                eq_refl).
    reflexivity.
  - erewrite (proj2 (releaseBlockAffinity_tolerates_deletes 100 memBackend "hostA"
                       (block26 0) busy _ _ (heldBy 0 (Some "hostA") [7])
                       Hn eq_refl eq_refl eq_refl)
                _ _ (Some ErrorResourceDoesNotExist) _ eq_refl eq_refl eq_refl).
    reflexivity.
Defined.

(** The store refuses the deletion of block records, and then updates. *)
Lemma releaseBlockAffinity_propagates_errors_witness :
  let noDelete := refusingBackend (fun op => match op with
                                             | Delete (mkKV (BlockKey _) _ _) => true
                                             | _ => false
                                             end) in
  let noUpdate := refusingBackend (fun op => match op with Update _ => true | _ => false end) in
  let idle := putBlocks [heldBy 0 (Some "hostA") []] emptyStore in
  let busy := putBlocks [heldBy 0 (Some "hostA") [7]] emptyStore in
  interp noDelete (releaseBlockAffinity 100 "hostA" (block26 0)) idle
  = (Returned (Some (ErrorDatastore "refused")), idle,
     [Get (BlockKey (block26 0)); Delete (blockKeyOnly (block26 0))])
  /\ fst (fst (interp noUpdate (releaseBlockAffinity 100 "hostA" (block26 0)) busy))
     = Returned (Some (ErrorDatastore "refused")).
Proof.
  intros noDelete noUpdate idle busy.
  assert ((0 < 100)%nat) as Hn by lia.
  split.
  - apply (proj1 (releaseBlockAffinity_propagates_errors 100 noDelete "hostA" (block26 0)
                    idle (mkKV (BlockKey (block26 0))
                               (VAllocationBlock (heldBy 0 (Some "hostA") [])) (Some 1))
                    idle (heldBy 0 (Some "hostA") []) (ErrorDatastore "refused") idle
                    Hn eq_refl eq_refl eq_refl));
      reflexivity.
  - erewrite (proj2 (releaseBlockAffinity_propagates_errors 100 noUpdate "hostA" (block26 0)
                       busy _ _ (heldBy 0 (Some "hostA") [7]) (ErrorDatastore "refused") _
                       Hn eq_refl eq_refl eq_refl));
      reflexivity.
Defined.

(** hostA releases its block with a lease while hostB holds a neighbour. *)
Lemma releaseBlockAffinity_keeps_other_records_witness :
  let st := putBlocks [heldBy 0 (Some "hostA") [7]; heldBy 64 (Some "hostB") []] emptyStore in
  let run := interp memBackend (releaseBlockAffinity 100 "hostA" (block26 0)) st in
  (forall k, k <> BlockKey (block26 0) -> k <> BlockAffinityKey "hostA" (block26 0) ->
             kvs (snd (fst run)) !! k = kvs st !! k)
  /\ (length (snd run) <= 3)%nat.
Proof.
  intros st run.
  apply (releaseBlockAffinity_keeps_other_records 100 st "hostA" (block26 0)
           (fst (fst run)) (snd (fst run)) (snd run)).
  - intros b rev Hb.
    assert (kvs st !! BlockKey (block26 0)
            = Some (mkEntry (VAllocationBlock (heldBy 0 (Some "hostA") [7])) 1)) as Hst
      by reflexivity.
    rewrite Hst in Hb. by injection Hb as <- _.
  - unfold run. by destruct (interp memBackend _ st) as [[o st'] tr].
Defined.

Lemma claim_then_release_witness :
  (0 < 100)%nat
  /\ exists st1 tr1 st2 tr2,
       interp memBackend (claimBlockAffinity (block26 0) "hostA" lenient) emptyStore
       = (Returned None, st1, tr1)
       /\ interp memBackend (releaseBlockAffinity 100 "hostA" (block26 0)) st1
          = (Returned None, st2, tr2)
       /\ kvs st2 = kvs emptyStore.
Proof.
  assert ((0 < 100)%nat) as Hn by lia.
  split; [exact Hn |].
  exact (claim_then_release 100 emptyStore (block26 0) "hostA" lenient Hn eq_refl eq_refl).
Defined.

(** The last address of 10.0.0.128/26, the last block the sequential
    generator returns over 10.0.0.0/24. *)
Lemma withinConfiguredPools_of_generated_block_witness :
  interp memBackend (withinConfiguredPools (incrementIP (netIP (block26 128)) 63)) emptyStore
  = (Returned true, emptyStore, [PoolsList]).
Proof.
  eapply (withinConfiguredPools_of_generated_block 64 stdIPv4 stdIPv6 memBackend pool24
            [mkPool pool24 false] emptyStore emptyStore 3 (block26 128) 63 eq_refl).
  - left. split; reflexivity.
  - exact pool24_canonical.
  - reflexivity.
  - right. right. left. reflexivity.
  - lia.
Defined.

(** A listing of two affinity records of hostA, asked with a pool that
    holds neither. *)
Lemma getAffineBlocks_lists_all_witness :
  let objs := [mkKV (BlockAffinityKey "hostA" (block26 64)) VBlockAffinity (Some 3);
               mkKV (BlockAffinityKey "hostA" (block26 0)) VBlockAffinity (Some 1)] in
  let backendList := fun (_ : BlockAffinityListOptions) (s : unit) => (Ok objs, s) in
  getAffineBlocks backendList "hostA" stdIPv4
                  (Some (mkIPNet (ip4 10 0 1 0) (CIDRMask 24 32))) tt
  = (Returned ([block26 64; block26 0], None), tt).
Proof.
  intros objs backendList.
  apply (proj1 (getAffineBlocks_lists_all backendList "hostA" stdIPv4
                  (Some (mkIPNet (ip4 10 0 1 0) (CIDRMask 24 32))) tt tt) objs eq_refl).
  repeat constructor.
Defined.

(** The address 10.0.0.1. *)
Lemma ResourceNameToIP_of_name_witness :
  let text := fun _ : IP => "10.0.0.1" in
  let parse := fun s : string =>
                 if String.eqb s "10.0.0.1" then Some (mkIP IPv4 167772161) else None in
  IPToResourceName text (mkIP IPv4 167772161) = "10-0-0-1"
  /\ resourceNameToIPString (IPToResourceName text (mkIP IPv4 167772161)) = "10.0.0.1"
  /\ ResourceNameToIP parse (IPToResourceName text (mkIP IPv4 167772161))
     = inl (mkIP IPv4 167772161).
Proof.
  intros text parse. split; [reflexivity |].
  apply (ResourceNameToIP_of_name text parse (mkIP IPv4 167772161)).
  left. repeat split. simpl. lia.
Defined.

(** The network fe80::/64. *)
Lemma ResourceNameToIPNet_of_name_witness :
  let net := mkIPNet (mkIP IPv6 (338288524927261089654018896841347694592)) (CIDRMask 64 128) in
  let text := fun _ : IPNet => "fe80::/64" in
  let parse := fun s : string => if String.eqb s "fe80::/64" then Some net else None in
  IPNetToResourceName text net = "fe80---64"
  /\ ResourceNameToIPNet parse (IPNetToResourceName text net) = inl net.
Proof.
  intros net text parse. split; [reflexivity |].
  apply (ResourceNameToIPNet_of_name text parse net "fe80::" "64").
  - reflexivity.
  - right. repeat split; try reflexivity. { simpl. lia. } left. reflexivity.
  - reflexivity.
  - reflexivity.
  - reflexivity.
  - reflexivity.
  - reflexivity.
Defined.

Lemma ResourceNameToIPNet_no_dash_witness :
  stringsCount "10.0.0.0/24" "-" = O
  /\ ResourceNameToIPNet (fun _ => Some pool24) "10.0.0.0/24"
     = inr (Errorf "invalid resource name: %s: does not follow Calico IPNet name format"
                   "10.0.0.0/24").
Proof.
  split; [reflexivity |].
  exact (ResourceNameToIPNet_no_dash (fun _ => Some pool24) "10.0.0.0/24" eq_refl).
Defined.

Lemma resource_names_are_plain_witness :
  let ipText := fun _ : IP => "10.0.0.1" in
  let netText := fun _ : IPNet => "fe80::/64" in
  (stringsCount (IPToResourceName ipText (ip4 10 0 0 1)) "." = O
   /\ stringsCount (IPToResourceName ipText (ip4 10 0 0 1)) ":" = O)
  /\ (stringsCount (IPNetToResourceName netText pool24) "." = O
      /\ stringsCount (IPNetToResourceName netText pool24) ":" = O
      /\ stringsCount (IPNetToResourceName netText pool24) "/" = O).
Proof.
  intros ipText netText.
  apply (resource_names_are_plain ipText netText (ip4 10 0 0 1) pool24 "fe80::" "64").
  - left. repeat split. simpl. lia.
  - reflexivity.
  - right. repeat split; try reflexivity. { simpl. lia. } left. reflexivity.
  - reflexivity.
  - reflexivity.
  - reflexivity.
  - reflexivity.
Defined.
